(** * httpserver: the lock registry, its chained hash map, the GET/PUT
    handlers and the start-up argument parsing, embedded from the C sources
    (hash_table.c, ll.c, item.h and the server's main file). *)

From Stdlib Require Import Ascii String.
From stdpp Require Import base numbers list strings finite.

(** ** Chained hash map: hash_table.h, hash_table.c, ll.c, item.h *)
Module HashTable.

(** [#define TABLE_SIZE 128] *)
Definition TABLE_SIZE : nat := 128.

(** [char key[255]] in [struct item]. *)
Definition KEY_SIZE : nat := 255.

(** [rwlock_t *]: an address, 0 being the null pointer. *)
Definition rwlock_ptr : Type := N.
Definition NULL : rwlock_ptr := 0%N.

(** [struct item { char key[255]; rwlock_t *id; }] *)
Record item : Type := Item { key : string; id : rwlock_ptr }.

(** A chain ([LL], [Node]): the nodes' items, head first. *)
Abbreviation LL := (list item) (only parsing).

(** [struct Hashtable { LL *table[TABLE_SIZE]; }] *)
Abbreviation Hashtable := (list (list item)) (only parsing).

(** The address of an [id] field: bucket index and node position. *)
Definition loc : Type := (nat * nat)%type.

(** [snprintf(dst.key, sizeof(dst.key), "%s", key)]: at most
    [KEY_SIZE - 1] bytes are copied, the last byte holds the terminator. *)
Definition snprintf_key (k : string) : string :=
  String.substring 0 (KEY_SIZE - 1) k.

(** Modelled from the spec: [cmp] is declared in item.h and its definition
    is missing from the files embedded here; the spec says the comparator
    "is always exact key-string equality". *)
Definition cmp (a b : item) : bool := String.eqb (key a) (key b).

(** [list_create]: [None] is the null result of a failed [malloc]. *)
Definition list_create (malloc_ok : bool) : option LL :=
  if malloc_ok then Some [] else None.

(** [list_add]: a new node holding a copy of [i] becomes the head. *)
Definition list_add (malloc_ok : bool) (l : LL) (i : item) : bool * LL :=
  if malloc_ok then (true, i :: l) else (false, l).

(** [list_find]: the first node, from the head, that [cmpfn] accepts;
    the node is given by its position in the chain. *)
Fixpoint list_find (l : LL) (cmpfn : item -> item -> bool) (i : item)
  : option nat :=
  match l with
  | [] => None
  | d :: n => if cmpfn d i then Some 0 else S <$> list_find n cmpfn i
  end.

#[global] Instance item_inhabited : Inhabited item := populate (Item "" NULL).

(** Reading and writing through a [rwlock_t **]. *)
Definition load (ht : Hashtable) (p : loc) : rwlock_ptr :=
  id ((ht !!! p.1) !!! p.2).

Definition store (ht : Hashtable) (p : loc) (val : rwlock_ptr) : Hashtable :=
  alter (alter (fun d => Item (key d) val) p.2) p.1 ht.

(** [hash_create]: [oks] tells, bucket by bucket, whether [list_create]
    succeeds; the first failure gives the null result. *)
Definition hash_create (malloc_ok : bool) (oks : nat -> bool) : option Hashtable :=
  if malloc_ok then mapM (fun i => list_create (oks i)) (seq 0 TABLE_SIZE)
  else None.

(** The table built when no allocation fails. *)
Definition empty_table : Hashtable := replicate TABLE_SIZE [].

Section WithHash.

(** [hash] comes from hash_fn.h, which is missing from the files embedded
    here: every definition below takes it as a parameter. *)
Variable hash : string -> N.

(** [hash(key) % TABLE_SIZE] *)
Definition index (k : string) : nat :=
  N.to_nat (hash k mod N.of_nat TABLE_SIZE).

(** [hash_get]: the address of the [id] of the first node of bucket
    [index key] whose stored key equals the truncated [key]. *)
Definition hash_get (ht : Hashtable) (k : string) : option loc :=
  let search_item := Item (snprintf_key k) NULL in
  match list_find (ht !!! index k) cmp search_item with
  | Some j => Some (index k, j)
  | None => None
  end.

(** [hash_put]; [malloc_ok] is consulted only when a node is allocated. *)
Definition hash_put (malloc_ok : bool) (ht : Hashtable) (k : string)
    (val : rwlock_ptr) : bool * Hashtable :=
  match hash_get ht k with
  | Some existing_val => (true, store ht existing_val val)
  | None =>
      let new_item := Item (snprintf_key k) val in
      let '(ok, l) := list_add malloc_ok (ht !!! index k) new_item in
      (ok, <[index k := l]> ht)
  end.

(** The value a lookup reads: [*hash_get(ht, key)] when it is not null. *)
Definition hash_lookup (ht : Hashtable) (k : string) : option rwlock_ptr :=
  load ht <$> hash_get ht k.

(** A sequence of [hash_put] calls, each with its allocation outcome. *)
Definition put_call : Type := (bool * string * rwlock_ptr)%type.

Definition run_puts (ht : Hashtable) (calls : list put_call) : Hashtable :=
  foldl (fun h c => (hash_put c.1.1 h c.1.2 c.2).2) ht calls.

End WithHash.

(** All live entries of the table, bucket by bucket. *)
Definition entries (ht : Hashtable) : list item := mjoin ht.

(** *** Notions used to state the properties of the table *)

(** The stored keys of a chain, head first. *)
Definition keys (l : LL) : list string := key <$> l.

(** The stored keys of all live entries. *)
Definition stored_keys (ht : Hashtable) : list string := key <$> entries ht.

(** The value a chain holds for the stored key [s]: the [id] of the first
    node whose key is [s]. *)
Definition chain_val (l : LL) (s : string) : option rwlock_ptr :=
  (fun j => id (l !!! j)) <$> list_find l cmp (Item s NULL).

(** What [hash_put] does to the chain of its bucket. *)
Definition chain_put (malloc_ok : bool) (l : LL) (s : string) (val : rwlock_ptr)
  : bool * LL :=
  match list_find l cmp (Item s NULL) with
  | Some j => (true, alter (fun d => Item (key d) val) j l)
  | None => list_add malloc_ok l (Item s val)
  end.

(** The keys of a sequence of calls. *)
Definition call_keys (calls : list put_call) : list string :=
  (fun c : put_call => c.1.2) <$> calls.

(** A key fits the key buffer: at most [KEY_SIZE - 1] bytes. *)
Definition fits (k : string) : Prop := String.length k ≤ KEY_SIZE - 1.

#[global] Instance fits_dec k : Decision (fits k).
Proof. unfold fits. apply _. Defined.

(** What every reachable table satisfies, [ks] being the keys put so far:
    no chain stores a key twice, and every stored key is the truncation of
    a key that was put and that hashes to the bucket of the chain. *)
Definition table_inv (hash : string -> N) (ks : list string) (ht : Hashtable)
  : Prop :=
  length ht = TABLE_SIZE ∧
  ∀ i, NoDup (keys (ht !!! i)) ∧
       ∀ s, s ∈ keys (ht !!! i) →
            ∃ k, k ∈ ks ∧ snprintf_key k = s ∧ index hash k = i.


(** The keys of the calls of a sequence for which [hash_put] returned
    [true], in the order of the calls. *)
Fixpoint inserted_keys (hash : string -> N) (ht : Hashtable)
    (calls : list put_call) : list string :=
  match calls with
  | [] => []
  | c :: cs =>
      let r := hash_put hash c.1.1 ht c.1.2 c.2 in
      (if r.1 then [c.1.2] else []) ++ inserted_keys hash r.2 cs
  end.

(** [table_inv] in both directions, [ks] being the keys inserted so far:
    the chain of bucket [i] stores exactly the truncations of the inserted
    keys that hash to [i], each once. *)
Definition slots_inv (hash : string -> N) (ks : list string) (ht : Hashtable)
  : Prop :=
  length ht = TABLE_SIZE ∧
  ∀ i, NoDup (keys (ht !!! i)) ∧
       ∀ s, s ∈ keys (ht !!! i) ↔
            ∃ k, k ∈ ks ∧ snprintf_key k = s ∧ index hash k = i.

(** *** Sample inputs *)

(** To run the table on concrete keys, [hash] being a parameter: a
    string hash on 64 bits, [h = h * 33 + c] from 5381. It serves to
    evaluate the definitions on concrete inputs; the theorems hold for
    every hash. *)
Definition sample_hash (s : string) : N :=
  foldl (fun h c => (h * 33 + N.of_nat (nat_of_ascii c)) mod 2 ^ 64)%N 5381%N
        (list_ascii_of_string s).

(** [n] bytes ['a']. *)
Fixpoint pad (n : nat) : string :=
  match n with
  | O => EmptyString
  | S n' => String "a"%char (pad n')
  end.

(** A key of more than 254 bytes: 254 bytes ['a'], then [suffix]. *)
Definition long_key (suffix : string) : string := pad (KEY_SIZE - 1) +:+ suffix.


(** *** The rest of ll.c *)

(** The [while] loop of [list_remove], [current] being the head of [l]:
    the first node that [cmpfn] accepts is unlinked and the loop stops. *)
Fixpoint remove_first (l : LL) (cmpfn : item -> item -> bool) (iptr : item)
  : LL :=
  match l with
  | [] => []
  | d :: n => if cmpfn iptr d then n else d :: remove_first n cmpfn iptr
  end.

(** [list_remove]: nothing happens unless [list_find] finds a node; then
    the head is unlinked when [cmpfn] accepts it, and otherwise the loop
    runs from the second node. The lookup calls [cmpfn(node, iptr)], the
    removal [cmpfn(iptr, node)]. *)
Definition list_remove (l : LL) (cmpfn : item -> item -> bool) (iptr : item)
  : LL :=
  match list_find l cmpfn iptr with
  | None => l
  | Some _ =>
      match l with
      | [] => []
      | head :: n =>
          if cmpfn iptr head then n else head :: remove_first n cmpfn iptr
      end
  end.

End HashTable.

(** ** Lock registry: [get_file_lock] and [cleanup_file_locks] *)
Module Registry.
Import HashTable.

(** What the allocator answers during one call of [get_file_lock]:
    the result of [rwlock_new] (null on failure) and whether the [malloc]
    of [list_add] succeeds. *)
Record alloc : Type := Alloc { rwlock_new_result : rwlock_ptr; list_add_ok : bool }.

Section WithHash.

Variable hash : string -> N.

(** [get_file_lock], for a registry whose table was created: the global
    [file_lock_ht] is what [hash_create()] returned, which [main] does not
    test; were it null, [hash_get] would read through a null pointer, and
    that run is not described here. The body runs
    between [pthread_mutex_lock] and [pthread_mutex_unlock] of
    [file_lock_ht_mutex] on every path, so calls are steps on the table:
    the result and the table after the call. *)
Definition get_file_lock (a : alloc) (file_lock_ht : Hashtable)
    (filename : string) : rwlock_ptr * Hashtable :=
  match hash_get hash file_lock_ht filename with
  | Some file_lock => (load file_lock_ht file_lock, file_lock_ht)
  | None =>
      let new_lock := rwlock_new_result a in
      if (new_lock =? NULL)%N then (NULL, file_lock_ht)
      else
        let '(ok, ht) := hash_put hash (list_add_ok a) file_lock_ht filename new_lock in
        if ok then (new_lock, ht) else (NULL, ht)
  end.

(** A sequence of calls, each with its allocator answers and its path. *)
Definition lock_call : Type := (alloc * string)%type.

Definition run_calls (ht : Hashtable) (calls : list lock_call) : Hashtable :=
  foldl (fun h c => (get_file_lock c.1 h c.2).2) ht calls.

End WithHash.

(** *** Teardown: which heap objects are released, and how often *)

(** The heap objects of a registry: the table, the chain header of bucket
    [i], node [j] of bucket [i], and the lock at address [p]. *)
Inductive obj : Type :=
| OTable
| OList (i : nat)
| ONode (i j : nat)
| OLock (p : rwlock_ptr).

#[global] Instance obj_eq_dec : EqDecision obj.
Proof. solve_decision. Defined.

Inductive fault : Type :=
| NullDeref
| UseAfterFree (o : obj)
| DoubleFree (o : obj).

(** The objects released so far, the latest first. *)
Abbreviation mem := (list obj) (only parsing).

Inductive outcome (A : Type) : Type :=
| Ok (a : A) (m : mem)
| Fault (f : fault) (m : mem).
Arguments Ok {A} a m.
Arguments Fault {A} f m.

(** Teardown code runs on the released set and stops at the first fault. *)
Definition M (A : Type) : Type := mem -> outcome A.

Definition ret {A} (a : A) : M A := fun m => Ok a m.

Definition bind {A B} (c : M A) (k : A -> M B) : M B :=
  fun m => match c m with
           | Ok a m' => k a m'
           | Fault f m' => Fault f m'
           end.

Definition raise {A} (f : fault) : M A := fun m => Fault f m.

Notation "c1 ;; c2" := (bind c1 (fun _ => c2))
  (at level 100, c2 at level 200, right associativity).

(** Reading or writing a field of [o]. *)
Definition access (o : obj) : M unit :=
  fun m => if decide (o ∈ m) then Fault (UseAfterFree o) m else Ok tt m.

(** [free(o)] *)
Definition free (o : obj) : M unit :=
  fun m => if decide (o ∈ m) then Fault (DoubleFree o) m else Ok tt (o :: m).

(** Modelled from the spec: [rwlock_delete] lives in the lock's own file,
    which is missing from the files embedded here; teardown is to "release
    each Resource Lock's resources", so it releases the lock at [p]. *)
Definition rwlock_delete (p : rwlock_ptr) : M unit := free (OLock p).

(** [if (x) rwlock_delete(&x)] *)
Definition delete_if_set (p : rwlock_ptr) : M unit :=
  if (p =? NULL)%N then ret tt else rwlock_delete p.

(** The [while] loop of [list_destroy], [current] being node [j]. *)
Fixpoint destroy_nodes (i j : nat) (nodes : LL) : M unit :=
  match nodes with
  | [] => ret tt
  | d :: next =>
      access (ONode i j);;
      delete_if_set (id d);;
      free (ONode i j);;
      destroy_nodes i (S j) next
  end.

(** [list_destroy] on the chain of bucket [i]. *)
Definition list_destroy (i : nat) (l : LL) : M unit :=
  access (OList i);;
  destroy_nodes i 0 l;;
  free (OList i).

(** [for (int i = 0; i < TABLE_SIZE; i++) body(i)] *)
Definition for_buckets (body : nat -> M unit) : M unit :=
  foldr (fun i k => body i;; k) (ret tt) (seq 0 TABLE_SIZE).

(** [hash_destroy(Hashtable **ht)]. The argument is [None] when [ht] is
    null, [Some None] when [*ht] is null; the result is the new [*ht]. *)
Definition hash_destroy (ht : option (option Hashtable)) : M (option Hashtable) :=
  match ht with
  | None => raise NullDeref
  | Some None =>
      for_buckets (fun _ => raise NullDeref);;
      ret None
  | Some (Some t) =>
      for_buckets (fun i => access OTable;; list_destroy i (t !!! i));;
      free OTable;;
      ret None
  end.

(** The [while] loop of [cleanup_file_locks], [current] being node [j]:
    [rwlock_delete] is given the address of the local copy [lock]. *)
Fixpoint delete_locks (i j : nat) (nodes : LL) : M unit :=
  match nodes with
  | [] => ret tt
  | d :: next =>
      access (ONode i j);;
      delete_if_set (id d);;
      delete_locks i (S j) next
  end.

(** The body of the [for] loop of [cleanup_file_locks]. *)
Definition cleanup_bucket (t : Hashtable) (i : nat) : M unit :=
  access OTable;;
  access (OList i);;
  delete_locks i 0 (t !!! i);;
  list_destroy i (t !!! i).

(** [cleanup_file_locks]; the result is the new [file_lock_ht]. *)
Definition cleanup_file_locks (file_lock_ht : option Hashtable)
  : M (option Hashtable) :=
  match file_lock_ht with
  | None => ret None
  | Some t =>
      for_buckets (cleanup_bucket t);;
      hash_destroy (Some file_lock_ht)
  end.

(** *** Notions used to state the properties of teardown *)

(** The run stopped at a fault. *)
Definition is_fault {A} (r : outcome A) : Prop :=
  match r with Fault _ _ => True | Ok _ _ => False end.

(** The fault a run stops at, if any. *)
Definition fault_of {A} (r : outcome A) : option fault :=
  match r with Fault f _ => Some f | Ok _ _ => None end.

(** A step either faults or ends with the postcondition [Q]. *)
Definition ends {A} (r : outcome A) (Q : A → list obj → Prop) : Prop :=
  match r with Fault _ _ => True | Ok a m => Q a m end.

(** *** Notions used to state further properties of the registry *)

(** The lock addresses the table stores, bucket by bucket. *)
Definition stored_locks (ht : Hashtable) : list rwlock_ptr := id <$> entries ht.

(** The paths of a sequence of calls. *)
Definition call_paths (calls : list lock_call) : list string := snd <$> calls.

(** Along a sequence of calls, [rwlock_new] never answers with an address
    that the table stores at that time: the allocator hands out memory
    that is not in use. *)
Fixpoint fresh_calls (hash : string -> N) (ht : Hashtable)
    (calls : list lock_call) : Prop :=
  match calls with
  | [] => True
  | c :: cs =>
      (rwlock_new_result c.1 ∉ stored_locks ht)
      ∧ fresh_calls hash (get_file_lock hash c.1 ht c.2).2 cs
  end.

(** What [list_destroy] releases for the nodes of bucket [i] from node [j]
    on, in program order: for each node its lock, when it has one, then
    the node. *)
Fixpoint node_objs (i j : nat) (nodes : LL) : list obj :=
  match nodes with
  | [] => []
  | d :: next =>
      (if (id d =? NULL)%N then [] else [OLock (id d)])
      ++ ONode i j :: node_objs i (S j) next
  end.

(** The objects of bucket [i]: those of its nodes, then its header. *)
Definition bucket_objs (t : Hashtable) (i : nat) : list obj :=
  node_objs i 0 (t !!! i) ++ [OList i].

(** The objects of the buckets [idxs]. *)
Definition buckets_objs (t : Hashtable) (idxs : list nat) : list obj :=
  idxs ≫= bucket_objs t.

(** All heap objects of a table, the table itself last. *)
Definition table_objs (t : Hashtable) : list obj :=
  buckets_objs t (seq 0 TABLE_SIZE) ++ [OTable].

(** The locks of the buckets [idxs]. *)
Definition buckets_locks (t : Hashtable) (idxs : list nat) : list rwlock_ptr :=
  idxs ≫= (fun i => filter (fun p => p ≠ NULL) (id <$> t !!! i)).

End Registry.

(** ** Request handlers: [handle_connection], [handle_get], [handle_put],
    [handle_unsupported], [audit_log] *)
Module Handlers.
Import HashTable Registry.

Local Open Scope Z_scope.
Local Open Scope list_scope.

(** The canned responses the handlers name, and any other one the
    connection layer hands back ([conn_parse], [conn_send_file]). *)
Inductive response : Type :=
| RESPONSE_OK
| RESPONSE_CREATED
| RESPONSE_FORBIDDEN
| RESPONSE_NOT_FOUND
| RESPONSE_INTERNAL_SERVER_ERROR
| RESPONSE_NOT_IMPLEMENTED
| RESPONSE_other (code : Z).

Inductive request : Type := REQUEST_GET | REQUEST_PUT | REQUEST_other.

(** [errno] values of <errno.h> (Linux numbering). *)
Definition ENOENT : Z := 2.
Definition EACCES : Z := 13.
Definition EISDIR : Z := 21.

Inductive oflag : Type := O_RDONLY | O_WRONLY_CREAT_TRUNC.

(** The parsed request a handler reads: [conn_get_uri],
    [conn_get_header(conn, "Request-Id")] (null when the header is absent)
    and [conn_get_request]. *)
Record conn_t : Type := Conn {
  conn_get_uri : string;
  conn_get_request_id : option string;
  conn_get_request : request
}.

(** The calls a handler makes, in program order, with the values passed
    and returned. *)
Inductive event : Type :=
| Eopen (path : string) (fl : oflag) (ret : Z)
| Eclose (fd : Z)
| Efstat (fd : Z) (ret : Z)
| Emkstemp (ret : Z)
| Eunlink (path : string)
| Eaccess (path : string) (ret : Z)
| Econn_send_response (r : response)
| Econn_send_file (fd : Z) (count : Z)
| Econn_recv_file (fd : Z)
| Epass_n_bytes (src dst : Z) (n : Z)
| Eget_file_lock (filename : string) (ret : rwlock_ptr)
| Ereader_lock (l : rwlock_ptr)
| Ereader_unlock (l : rwlock_ptr)
| Ewriter_lock (l : rwlock_ptr)
| Ewriter_unlock (l : rwlock_ptr)
| Eaudit_log (method uri : string) (status_code : Z) (request_id : string).

#[global] Instance response_eq_dec : EqDecision response.
Proof. solve_decision. Defined.
#[global] Instance oflag_eq_dec : EqDecision oflag.
Proof. solve_decision. Defined.
#[global] Instance event_eq_dec : EqDecision event.
Proof. solve_decision. Defined.

(** [audit_log]: the line [METHOD,/URI,STATUS,REQUEST-ID] on stderr; a
    missing [Request-Id] is logged as ["0"]. A [conn_t] here is a parsed
    request, whose uri is not null: the branch that logs ["Unknown uri"]
    for a null uri is not described. *)
Definition audit_log (method : string) (conn : conn_t) (status_code : Z) : event :=
  let request_id := default "0" (conn_get_request_id conn) in
  Eaudit_log method (conn_get_uri conn) status_code request_id.

(** What the operating system, the allocator and the connection layer
    answer during one [handle_get]. *)
Record get_world : Type := GetWorld {
  g_open_ret : Z;                       (* open(uri, O_RDONLY) *)
  g_errno : Z;                          (* errno after a failed open *)
  g_alloc : alloc;                      (* inside get_file_lock *)
  g_fstat_ret : Z;                      (* fstat(fd, &file_stat) *)
  g_st_size : Z;
  g_S_ISDIR : bool;
  g_send_file_ret : option response     (* conn_send_file; None is NULL *)
}.

(** The same for one [handle_put]. *)
Record put_world : Type := PutWorld {
  p_temp_file : string;                 (* the name mkstemp writes *)
  p_mkstemp_ret : Z;
  p_recv_file_ret : option response;    (* conn_recv_file; None is NULL *)
  p_alloc : alloc;
  p_access_ret : Z;                     (* access(uri, F_OK) *)
  p_open_target_ret : Z;
  p_errno : Z;                          (* errno after the failed open *)
  p_open_tmp_ret : Z;
  p_fstat_ret : Z;
  p_st_size : Z;
  p_pass_n_bytes_ret : Z
}.

Section WithHash.

Variable hash : string -> N.

(** [handle_get]: the calls made and the registry table afterwards, the
    global [file_lock_ht] being a created table (see [get_file_lock]). *)
Definition handle_get (w : get_world) (conn : conn_t) (file_lock_ht : Hashtable)
  : list event * Hashtable :=
  let uri := conn_get_uri conn in
  let fd := g_open_ret w in
  if fd <? 0 then
    if g_errno w =? EACCES then
      ([Eopen uri O_RDONLY fd; Econn_send_response RESPONSE_FORBIDDEN;
        audit_log "GET" conn 403], file_lock_ht)
    else if g_errno w =? ENOENT then
      ([Eopen uri O_RDONLY fd; Econn_send_response RESPONSE_NOT_FOUND;
        audit_log "GET" conn 404], file_lock_ht)
    else
      ([Eopen uri O_RDONLY fd; Econn_send_response RESPONSE_INTERNAL_SERVER_ERROR;
        audit_log "GET" conn 500], file_lock_ht)
  else
    let '(lock, ht) := get_file_lock hash (g_alloc w) file_lock_ht uri in
    let locked := [Eopen uri O_RDONLY fd; Eget_file_lock uri lock; Ereader_lock lock;
                   Efstat fd (g_fstat_ret w)] in
    if g_fstat_ret w <? 0 then
      (locked ++ [Econn_send_response RESPONSE_INTERNAL_SERVER_ERROR;
                  audit_log "GET" conn 500; Ereader_unlock lock], ht)
    else
      let file_size := g_st_size w in
      if g_S_ISDIR w then
        (locked ++ [Econn_send_response RESPONSE_FORBIDDEN;
                    audit_log "GET" conn 403; Ereader_unlock lock], ht)
      else
        match g_send_file_ret w with
        | Some res =>
            (locked ++ [Econn_send_file fd file_size; Econn_send_response res;
                        audit_log "GET" conn 500; Eclose fd; Ereader_unlock lock], ht)
        | None =>
            (locked ++ [Econn_send_file fd file_size;
                        audit_log "GET" conn 200; Eclose fd; Ereader_unlock lock], ht)
        end.

(** [handle_put], likewise. *)
Definition handle_put (w : put_world) (conn : conn_t) (file_lock_ht : Hashtable)
  : list event * Hashtable :=
  let uri := conn_get_uri conn in
  let temp_file_template := p_temp_file w in
  let tmp_fd := p_mkstemp_ret w in
  if tmp_fd <? 0 then
    ([Emkstemp tmp_fd; Econn_send_response RESPONSE_INTERNAL_SERVER_ERROR;
      audit_log "PUT" conn 500], file_lock_ht)
  else
    match p_recv_file_ret w with
    | Some _ =>
        ([Emkstemp tmp_fd; Econn_recv_file tmp_fd;
          Econn_send_response RESPONSE_INTERNAL_SERVER_ERROR;
          audit_log "PUT" conn 500; Eclose tmp_fd; Eunlink temp_file_template],
         file_lock_ht)
    | None =>
        let '(lock, ht) := get_file_lock hash (p_alloc w) file_lock_ht uri in
        let exists_ := p_access_ret w in
        let target_fd := p_open_target_ret w in
        let locked := [Emkstemp tmp_fd; Econn_recv_file tmp_fd; Eclose tmp_fd;
                       Eget_file_lock uri lock; Ewriter_lock lock;
                       Eaccess uri exists_;
                       Eopen uri O_WRONLY_CREAT_TRUNC target_fd] in
        if target_fd <? 0 then
          if (p_errno w =? EACCES) || (p_errno w =? EISDIR) then
            (locked ++ [Econn_send_response RESPONSE_FORBIDDEN;
                        audit_log "PUT" conn 403;
                        Eunlink temp_file_template; Ewriter_unlock lock], ht)
          else
            (locked ++ [Econn_send_response RESPONSE_INTERNAL_SERVER_ERROR;
                        audit_log "PUT" conn 500;
                        Eunlink temp_file_template; Ewriter_unlock lock], ht)
        else
          let tmp_fd := p_open_tmp_ret w in
          let reopened := locked ++ [Eopen temp_file_template O_RDONLY tmp_fd] in
          if tmp_fd <? 0 then
            (reopened ++ [Econn_send_response RESPONSE_INTERNAL_SERVER_ERROR;
                          audit_log "PUT" conn 500; Eclose target_fd;
                          Eunlink temp_file_template; Ewriter_unlock lock], ht)
          else
            let sized := reopened ++ [Efstat tmp_fd (p_fstat_ret w)] in
            if p_fstat_ret w <? 0 then
              (sized ++ [Econn_send_response RESPONSE_INTERNAL_SERVER_ERROR;
                         audit_log "PUT" conn 500; Eclose target_fd; Eclose tmp_fd;
                         Eunlink temp_file_template; Ewriter_unlock lock], ht)
            else
              let file_size := p_st_size w in
              let result := p_pass_n_bytes_ret w in
              let copied := sized ++ [Epass_n_bytes tmp_fd target_fd file_size] in
              if result =? -1 then
                (copied ++ [Econn_send_response RESPONSE_INTERNAL_SERVER_ERROR;
                            audit_log "PUT" conn 500; Eclose target_fd; Eclose tmp_fd;
                            Eunlink temp_file_template; Ewriter_unlock lock], ht)
              else if exists_ <? 0 then
                (copied ++ [Eclose tmp_fd; Eclose target_fd;
                            Econn_send_response RESPONSE_CREATED;
                            audit_log "PUT" conn 201;
                            Eunlink temp_file_template; Ewriter_unlock lock], ht)
              else
                (copied ++ [Eclose tmp_fd; Eclose target_fd;
                            Econn_send_response RESPONSE_OK;
                            audit_log "PUT" conn 200;
                            Eunlink temp_file_template; Ewriter_unlock lock], ht)
    end.

(** [handle_unsupported] *)
Definition handle_unsupported (conn : conn_t) : list event :=
  [Econn_send_response RESPONSE_NOT_IMPLEMENTED; audit_log "UNSUPPORTED" conn 501].

End WithHash.

(** Readings of a trace. *)
Definition responses (tr : list event) : list response :=
  omap (fun e => match e with Econn_send_response r => Some r | _ => None end) tr.

Definition audit_codes (tr : list event) : list Z :=
  omap (fun e => match e with Eaudit_log _ _ c _ => Some c | _ => None end) tr.

Definition is_lock_event (e : event) : bool :=
  match e with
  | Eget_file_lock _ _ | Ereader_lock _ | Ereader_unlock _
  | Ewriter_lock _ | Ewriter_unlock _ => true
  | _ => false
  end.

(** The part of a trace after the write lock was taken. *)
Fixpoint after_writer_lock (tr : list event) : list event :=
  match tr with
  | [] => []
  | Ewriter_lock _ :: rest => rest
  | _ :: rest => after_writer_lock rest
  end.

(** *** Notions used to state the properties of the handlers *)

(** One of the steps [handle_put] makes while it holds the write lock
    fails: the open of the target, the reopening of the temporary file,
    [fstat], or the copy. *)
Definition put_fails_after_lock (w : put_world) : Prop :=
  p_open_target_ret w < 0 ∨ p_open_tmp_ret w < 0 ∨ p_fstat_ret w < 0
  ∨ p_pass_n_bytes_ret w = -1.

(** The target could not be opened, for lack of permission or because it
    is a directory. *)
Definition put_forbidden (w : put_world) : bool :=
  (p_open_target_ret w <? 0) && ((p_errno w =? EACCES) || (p_errno w =? EISDIR)).

(** *** Sample inputs *)

(** [open] fails with [ENOENT]. *)
Definition world_missing : get_world :=
  GetWorld (-1) ENOENT (Alloc 1%N true) 0 0 false None.

(** The body was received, the write lock is taken, and the open of the
    target fails with [EACCES]. *)
Definition world_put_denied : put_world :=
  PutWorld "tmpAb3dE9" 4 None (Alloc 1%N true) 0 (-1) EACCES 0 0 0 0.

(** The copy to the target fails. *)
Definition world_put_copy_fails : put_world :=
  PutWorld "tmpAb3dE9" 4 None (Alloc 1%N true) 0 5 0 6 0 5 (-1).

(** *** [handle_connection] *)

(** What one connection meets: the result of [conn_parse] (null when the
    request was parsed) and the answers its handler gets. *)
Record conn_world : Type := ConnWorld {
  c_parse_ret : option response;
  c_get : get_world;
  c_put : put_world
}.

(** [handle_connection]: the calls the handlers record and the registry
    table afterwards. [conn_new], [conn_parse] and [conn_delete] belong to
    the connection layer and leave no event. *)
Definition handle_connection (hash : string -> N) (w : conn_world)
    (conn : conn_t) (file_lock_ht : Hashtable) : list event * Hashtable :=
  match c_parse_ret w with
  | Some res => ([Econn_send_response res], file_lock_ht)
  | None =>
      match conn_get_request conn with
      | REQUEST_GET => handle_get hash (c_get w) conn file_lock_ht
      | REQUEST_PUT => handle_put hash (c_put w) conn file_lock_ht
      | REQUEST_other => (handle_unsupported conn, file_lock_ht)
      end
  end.

(** *** Further readings of a trace *)

(** The audit records, in order. *)
Definition audits (tr : list event) : list (string * string * Z * string) :=
  omap (fun e => match e with
                 | Eaudit_log m u c r => Some (m, u, c, r)
                 | _ => None
                 end) tr.

(** The calls on the registry and on locks, in order. *)
Definition lock_events (tr : list event) : list event :=
  filter (fun e => is_lock_event e = true) tr.

(** The descriptors that [mkstemp] and [open] returned. *)
Definition opened (tr : list event) : list Z :=
  omap (fun e => match e with
                 | Emkstemp r | Eopen _ _ r => if r <? 0 then None else Some r
                 | _ => None
                 end) tr.

(** The descriptors passed to [close]. *)
Definition closed (tr : list event) : list Z :=
  omap (fun e => match e with Eclose fd => Some fd | _ => None end) tr.

(** The paths passed to [unlink]. *)
Definition unlinked (tr : list event) : list string :=
  omap (fun e => match e with Eunlink p => Some p | _ => None end) tr.

(** The calls that touch the file system under the request's path. *)
Definition touches (uri : string) (e : event) : bool :=
  match e with
  | Eopen p _ _ | Eaccess p _ => String.eqb p uri
  | _ => false
  end.

(** The calls that send something to the client. *)
Definition is_send (e : event) : bool :=
  match e with
  | Econn_send_response _ | Econn_send_file _ _ => true
  | _ => false
  end.

(** The calls of [pass_n_bytes]: source, destination and count. *)
Definition copies (tr : list event) : list (Z * Z * Z) :=
  omap (fun e => match e with
                 | Epass_n_bytes src dst n => Some (src, dst, n)
                 | _ => None
                 end) tr.

(** No step of a PUT fails by the tests [handle_put] makes. The result of
    [pass_n_bytes] is tested against -1 only: a copy that reports fewer
    bytes than [st_size] passes. *)
Definition put_succeeds (w : put_world) : Prop :=
  0 ≤ p_mkstemp_ret w ∧ p_recv_file_ret w = None
  ∧ 0 ≤ p_open_target_ret w ∧ 0 ≤ p_open_tmp_ret w ∧ 0 ≤ p_fstat_ret w
  ∧ p_pass_n_bytes_ret w ≠ -1.

End Handlers.

(** ** Start-up: the argument parsing of [main] *)
Module Startup.

Local Open Scope Z_scope.
Local Open Scope list_scope.

(** [#define DEFAULT_THREADS 4] *)
Definition DEFAULT_THREADS : Z := 4.

Definition EXIT_FAILURE : Z := 1.

Definition ULLONG_MAX : Z := 2 ^ 64 - 1.
Definition LONG_MAX : Z := 2 ^ 63 - 1.
Definition LONG_MIN : Z := - 2 ^ 63.

(** [isspace] in the C locale. *)
Definition isspace (c : ascii) : bool :=
  let n := nat_of_ascii c in
  ((n =? 32) || ((9 <=? n) && (n <=? 13)))%nat.

Definition digit_of (c : ascii) : option Z :=
  let n := Z.of_nat (nat_of_ascii c) in
  if (48 <=? n) && (n <=? 57) then Some (n - 48) else None.

Fixpoint skip_space (s : string) : string :=
  match s with
  | String c r => if isspace c then skip_space r else s
  | EmptyString => s
  end.

(** An optional sign: whether it is a minus, and what follows it. *)
Definition read_sign (s : string) : bool * string :=
  match s with
  | String "-"%char r => (true, r)
  | String "+"%char r => (false, r)
  | _ => (false, s)
  end.

(** The longest run of decimal digits: how many there are, their value,
    and what follows them. *)
Fixpoint read_digits (acc : Z) (s : string) : nat * Z * string :=
  match s with
  | String c r =>
      match digit_of c with
      | Some d => let '(n, v, rest) := read_digits (10 * acc + d) r in (S n, v, rest)
      | None => (0%nat, acc, s)
      end
  | EmptyString => (0%nat, acc, s)
  end.

(** [strtoull(nptr, &endptr, 10)] of the C library: the value and the
    string at [endptr]. Without digits the value is 0 and [endptr] is
    [nptr]; an overflow gives [ULLONG_MAX]; a minus sign negates modulo
    [2 ^ 64]. *)
Definition strtoull (nptr : string) : Z * string :=
  let '(neg, s) := read_sign (skip_space nptr) in
  let '(n, v, rest) := read_digits 0 s in
  match n with
  | O => (0, nptr)
  | S _ =>
      if v >? ULLONG_MAX then (ULLONG_MAX, rest)
      else if neg then ((- v) mod 2 ^ 64, rest)
      else (v, rest)
  end.

(** [atoi(s)], which is [(int) strtol(s, NULL, 10)]: the value saturates at
    the bounds of [long] and is then reduced to the 32 bits of [int]. *)
Definition atoi (nptr : string) : Z :=
  let '(neg, s) := read_sign (skip_space nptr) in
  let '(_, v, _) := read_digits 0 s in
  let l := if neg then Z.max LONG_MIN (- v) else Z.min LONG_MAX v in
  (l + 2 ^ 31) mod 2 ^ 32 - 2 ^ 31.

(** One call of [getopt(argc, argv, "t:")] of the C library, scanning as
    POSIX specifies: it stops at the first argument that is not an option.
    A library that permutes the arguments instead (GNU, unless
    POSIXLY_CORRECT is set) gives the same results on the command lines
    whose options all come before the port. *)
Inductive getopt_ret : Type :=
| GOpt_t (optarg : string) (optind : nat)   (* 't' *)
| GUnknown                                  (* '?' *)
| GEnd (optind : nat).                      (* -1 *)

Definition getopt (argv : list string) (optind : nat) : getopt_ret :=
  match argv !! optind with
  | None => GEnd optind
  | Some (String "-"%char (String "-"%char EmptyString)) => GEnd (S optind)
  | Some (String "-"%char (String "t"%char EmptyString)) =>
      match argv !! S optind with
      | Some optarg => GOpt_t optarg (S (S optind))
      | None => GUnknown
      end
  | Some (String "-"%char (String "t"%char optarg)) => GOpt_t optarg (S optind)
  | Some (String "-"%char (String _ _)) => GUnknown
  | Some _ => GEnd optind
  end.

(** The [while ((opt = getopt(...)) != -1)] loop: [None] is the
    [return EXIT_FAILURE] of the [default] case, otherwise the thread count
    and [optind]. Every round consumes an argument, so [fuel] rounds with
    [fuel] the number of arguments are enough. *)
Fixpoint parse_options (fuel : nat) (argv : list string) (optind : nat)
    (num_threads : Z) : option (Z * nat) :=
  match fuel with
  | O => Some (num_threads, optind)
  | S fuel' =>
      match getopt argv optind with
      | GOpt_t optarg optind' => parse_options fuel' argv optind' (atoi optarg)
      | GUnknown => None
      | GEnd optind' => Some (num_threads, optind')
      end
  end.

(** How [main] ends, or that it passes its checks and goes on to
    [queue_new(num_threads)], [hash_create()], the declaration
    [pthread_t threads[num_threads]], the workers and the accept loop.
    [Serve] records the values it goes on with; a thread count below 0
    makes that declaration undefined. *)
Inductive outcome : Type :=
| Exit (status : Z)                         (* return from main *)
| Crash                                     (* a null pointer is read *)
| Serve (num_threads : Z) (port : Z).       (* queue, workers and accept loop *)

(** [main]; [listener_init_ret] is what [listener_init(&sock, port)] returns. *)
Definition main (listener_init_ret : Z -> Z) (argv : list string) : outcome :=
  let argc := length argv in
  if (argc <? 2)%nat then Exit EXIT_FAILURE
  else
    match parse_options argc argv 1 DEFAULT_THREADS with
    | None => Exit EXIT_FAILURE
    | Some (num_threads, optind) =>
        match argv !! optind with
        | None => Crash                     (* strtoull(argv[argc]) *)
        | Some arg =>
            let '(port, endptr) := strtoull arg in
            if negb (String.eqb endptr "") then Exit EXIT_FAILURE
            else if (port <? 1) || (port >? 65535) then Exit EXIT_FAILURE
            else if listener_init_ret port <? 0 then Exit EXIT_FAILURE
            else Serve num_threads port
        end
    end.

(** *** Sample inputs *)

(** [listener_init] succeeds on every port. *)
Definition listener_ok (port : Z) : Z := 0.

(** *** Plain decimal numerals *)

(** The argument starts with ['-']: it may be read as an option. *)
Definition starts_with_dash (a : string) : bool :=
  match a with
  | String "-"%char _ => true
  | _ => false
  end.

(** Every byte of [s] is a decimal digit. *)
Fixpoint all_digits (s : string) : bool :=
  match s with
  | String c r => bool_decide (is_Some (digit_of c)) && all_digits r
  | EmptyString => true
  end.

(** The value of the digits of [s] read after [acc]. *)
Fixpoint decimal_from (acc : Z) (s : string) : Z :=
  match s with
  | String c r => decimal_from (10 * acc + default 0 (digit_of c)) r
  | EmptyString => acc
  end.

(** The number a decimal numeral denotes. *)
Definition decimal (s : string) : Z := decimal_from 0 s.

End Startup.

(** * Properties of the chained hash map *)
Module HashTableFacts.
Import HashTable.

Lemma hash_create_ok : hash_create true (fun _ => true) = Some empty_table.
Proof. reflexivity. Qed.

Lemma hash_create_null oks : hash_create false oks = None.
Proof. reflexivity. Qed.

Lemma snprintf_key_short k :
  String.length k ≤ KEY_SIZE - 1 → snprintf_key k = k.
Proof.
  unfold snprintf_key. generalize (KEY_SIZE - 1).
  induction k as [|c k IH]; intros [|n] Hn; simpl in *; try done; try lia.
  f_equal. apply IH. lia.
Qed.

Lemma snprintf_key_length k : String.length (snprintf_key k) ≤ KEY_SIZE - 1.
Proof.
  unfold snprintf_key. generalize (KEY_SIZE - 1). intros n. revert k.
  induction n as [|n IH]; intros [|c k]; simpl; try lia.
  specialize (IH k). lia.
Qed.

Lemma snprintf_key_app p s :
  String.length p = (KEY_SIZE - 1)%nat → snprintf_key (p +:+ s) = p.
Proof.
  unfold snprintf_key. generalize (KEY_SIZE - 1). intros n. revert n.
  induction p as [|c p IH]; intros n Hn; simpl in *; subst n.
  - by destruct s.
  - simpl. f_equal. by apply IH.
Qed.

Lemma cmp_spec a b : cmp a b = true ↔ key a = key b.
Proof. unfold cmp. apply String.eqb_eq. Qed.

Lemma cmp_false a b : cmp a b = false ↔ key a ≠ key b.
Proof. unfold cmp. apply String.eqb_neq. Qed.

Lemma list_find_None l s :
  list_find l cmp (Item s NULL) = None ↔ s ∉ keys l.
Proof.
  unfold keys. induction l as [|d l IH]; simpl.
  - split; [intros _; apply not_elem_of_nil | done].
  - rewrite not_elem_of_cons. destruct (cmp d (Item s NULL)) eqn:E.
    + apply cmp_spec in E. simpl in E. split; [done|]. intros [? _]. congruence.
    + apply cmp_false in E. simpl in E.
      destruct (list_find l cmp (Item s NULL)); simpl.
      * split; [done|]. intros [_ H]. by apply IH in H.
      * split; [|done]. intros _. split; [congruence|]. by apply IH.
Qed.

Lemma list_find_Some l s j :
  list_find l cmp (Item s NULL) = Some j ↔
  (∃ d, l !! j = Some d ∧ key d = s) ∧ s ∉ keys (take j l).
Proof.
  unfold keys. revert j. induction l as [|d l IH]; intros j; simpl.
  - split; [done|]. by intros [(? & ? & _) _].
  - destruct (cmp d (Item s NULL)) eqn:E.
    + apply cmp_spec in E. simpl in E. split.
      * intros [= <-]. split; [by exists d|]. simpl. apply not_elem_of_nil.
      * intros [_ Hn]. destruct j as [|j]; [done|]. exfalso. apply Hn.
        simpl. rewrite E. apply list_elem_of_here.
    + apply cmp_false in E. simpl in E. destruct j as [|j]; simpl.
      * split.
        -- destruct (list_find l cmp (Item s NULL)); done.
        -- intros [(d' & [= <-] & ?) _]. done.
      * rewrite not_elem_of_cons. specialize (IH j).
        destruct (list_find l cmp (Item s NULL)) as [j'|]; simpl.
        -- split.
           ++ intros [= ->]. destruct (proj1 IH eq_refl) as [Hd Hn].
              split; [done|]. split; [congruence|done].
           ++ intros [Hd [_ Hn]].
              assert (Some j' = Some j) as [= ->] by (by apply IH). done.
        -- split; [done|]. intros [Hd [_ Hn]].
           assert (@None nat = Some j) by (by apply IH). done.
Qed.

Lemma list_find_is_Some l s :
  is_Some (list_find l cmp (Item s NULL)) ↔ s ∈ keys l.
Proof.
  destruct (list_find l cmp (Item s NULL)) eqn:E.
  - split; [intros _|by eauto]. apply list_find_Some in E as [(d & Hd & <-) _].
    unfold keys. apply list_elem_of_fmap. exists d. split; [done|].
    by eapply list_elem_of_lookup_2.
  - apply list_find_None in E. split; [by intros [? ?]|done].
Qed.

Lemma list_find_lt l s j :
  list_find l cmp (Item s NULL) = Some j → j < length l.
Proof.
  intros [(d & Hd & _) _]%list_find_Some. by eapply lookup_lt_Some.
Qed.

Lemma list_find_keys l1 l2 i :
  keys l1 = keys l2 → list_find l1 cmp i = list_find l2 cmp i.
Proof.
  unfold keys. revert l2. induction l1 as [|d l1 IH]; intros [|d2 l2] H; try done.
  simpl in *. injection H as Hd Hl. unfold cmp at 1 3. rewrite Hd.
  by rewrite (IH l2 Hl).
Qed.

Lemma keys_alter_id l j val :
  keys (alter (fun d => Item (key d) val) j l) = keys l.
Proof.
  unfold keys. revert j. induction l as [|d l IH]; intros [|j]; simpl; try done.
  f_equal. apply IH.
Qed.

Lemma chain_put_keys ok l s v l' :
  chain_put ok l s v = (true, l') →
  keys l' = if decide (s ∈ keys l) then keys l else s :: keys l.
Proof.
  unfold chain_put, list_add.
  destruct (list_find l cmp (Item s NULL)) as [j|] eqn:E.
  - intros [= <-]. rewrite keys_alter_id.
    rewrite decide_True; [done|]. apply list_find_is_Some. by rewrite E.
  - apply list_find_None in E. destruct ok; intros [= <-].
    by rewrite decide_False.
Qed.

Lemma chain_put_false ok l s v l' :
  chain_put ok l s v = (false, l') → l' = l ∧ (s ∉ keys l) ∧ ok = false.
Proof.
  unfold chain_put, list_add.
  destruct (list_find l cmp (Item s NULL)) as [j|] eqn:E; [done|].
  apply list_find_None in E. destruct ok; by intros [= <-].
Qed.

Lemma chain_put_length ok l s v b l' :
  chain_put ok l s v = (b, l') →
  length l' = if decide (s ∈ keys l) then length l
              else if b then S (length l) else length l.
Proof.
  unfold chain_put, list_add.
  destruct (list_find l cmp (Item s NULL)) as [j|] eqn:E.
  - intros [= <- <-]. rewrite length_alter.
    rewrite decide_True; [done|]. apply list_find_is_Some. by rewrite E.
  - apply list_find_None in E. rewrite decide_False by done.
    destruct ok; by intros [= <- <-].
Qed.

Lemma chain_put_NoDup ok l s v b l' :
  chain_put ok l s v = (b, l') → NoDup (keys l) → NoDup (keys l').
Proof.
  intros H Hl. destruct b.
  - rewrite (chain_put_keys _ _ _ _ _ H). case_decide; [done|].
    by apply NoDup_cons.
  - by apply chain_put_false in H as (-> & _).
Qed.

Lemma chain_val_Some l s v :
  chain_val l s = Some v → s ∈ keys l.
Proof.
  unfold chain_val. intros H. apply list_find_is_Some.
  destruct (list_find l cmp (Item s NULL)); [by eauto|done].
Qed.

Lemma chain_val_None l s : chain_val l s = None ↔ s ∉ keys l.
Proof.
  unfold chain_val. rewrite <- list_find_None.
  by destruct (list_find l cmp (Item s NULL)).
Qed.

Lemma chain_val_put ok l s v l' s' :
  chain_put ok l s v = (true, l') →
  chain_val l' s' = if decide (s' = s) then Some v else chain_val l s'.
Proof.
  unfold chain_put, list_add, chain_val.
  destruct (list_find l cmp (Item s NULL)) as [j|] eqn:E.
  - intros [= <-].
    rewrite (list_find_keys _ l) by apply keys_alter_id.
    case_decide as Hs.
    + subst s'. rewrite E. simpl. f_equal.
      rewrite list_lookup_total_alter_eq; [done|]. by eapply list_find_lt.
    + destruct (list_find l cmp (Item s' NULL)) as [j'|] eqn:E'; [|done].
      simpl. f_equal. rewrite list_lookup_total_alter_ne; [done|].
      intros ->. apply list_find_Some in E as [(d & Hd & <-) _].
      apply list_find_Some in E' as [(d' & Hd' & <-) _]. congruence.
  - destruct ok; intros [= <-]. simpl. unfold cmp at 1. simpl.
    case_decide as Hs.
    + subst s'. by rewrite String.eqb_refl.
    + apply String.eqb_neq in Hs. rewrite String.eqb_sym, Hs.
      by destruct (list_find l cmp (Item s' NULL)).
Qed.

Lemma stored_keys_cons l (ht : Hashtable) :
  stored_keys (l :: ht) = keys l ++ stored_keys ht.
Proof. unfold stored_keys, entries, keys. simpl. by rewrite fmap_app. Qed.

Lemma elem_of_stored_keys (ht : Hashtable) s :
  s ∈ stored_keys ht ↔ ∃ i, i < length ht ∧ s ∈ keys (ht !!! i).
Proof.
  induction ht as [|l ht IH].
  - split; [by intros ?%elem_of_nil|]. intros (i & Hi & _). simpl in Hi. lia.
  - rewrite stored_keys_cons, elem_of_app, IH. split.
    + intros [H|(i & Hi & H)]; [exists 0|exists (S i)]; simpl; split; try done; lia.
    + intros ([|i] & Hi & H); [by left|]. right. exists i. simpl in Hi.
      split; [lia|done].
Qed.

(** Chains without repeated keys whose keys are told apart by their bucket
    make a table without repeated keys. *)
Lemma NoDup_stored_keys (h : string → nat) (ht : Hashtable) n :
  (∀ i, i < length ht → NoDup (keys (ht !!! i))) →
  (∀ i s, i < length ht → s ∈ keys (ht !!! i) → h s = n + i) →
  NoDup (stored_keys ht).
Proof.
  revert n. induction ht as [|l ht IH]; intros n Hnd Hh.
  - apply NoDup_nil_2.
  - rewrite stored_keys_cons. apply NoDup_app. split_and!.
    + apply (Hnd 0). simpl. lia.
    + intros s Hs (i & Hi & Hs')%elem_of_stored_keys.
      pose proof (Hh 0 s ltac:(simpl; lia) Hs) as H0.
      pose proof (Hh (S i) s ltac:(simpl; lia) Hs') as H1. lia.
    + apply (IH (S n)).
      * intros i Hi. apply (Hnd (S i)). simpl. lia.
      * intros i s Hi Hs. rewrite (Hh (S i) s); [lia|simpl; lia|done].
Qed.

Lemma empty_table_lookup i : empty_table !!! i = [].
Proof.
  unfold empty_table. generalize TABLE_SIZE. intros n. revert i.
  induction n as [|n IH]; intros [|i]; simpl; auto.
Qed.

Section WithHash.

Variable hash : string -> N.

Abbreviation index := (index hash).
Abbreviation hash_get := (hash_get hash).
Abbreviation hash_put := (hash_put hash).
Abbreviation hash_lookup := (hash_lookup hash).
Abbreviation run_puts := (run_puts hash).

Lemma index_lt k : index k < TABLE_SIZE.
Proof.
  unfold HashTable.index, TABLE_SIZE.
  pose proof (N.mod_upper_bound (hash k) (N.of_nat 128)). lia.
Qed.

Lemma store_insert (ht : Hashtable) i j v :
  i < length ht →
  store ht (i, j) v = <[i := alter (fun d => Item (key d) v) j (ht !!! i)]> ht.
Proof.
  intros Hi. unfold store. simpl. apply list_eq. intros i'.
  destruct (decide (i = i')) as [<-|Hne].
  - rewrite list_lookup_alter_eq, list_lookup_insert_eq by done.
    by rewrite (list_lookup_lookup_total_lt ht i Hi).
  - by rewrite list_lookup_alter_ne, list_lookup_insert_ne.
Qed.

Lemma hash_get_chain ht k :
  hash_get ht k =
  (fun j => (index k, j)) <$> list_find (ht !!! index k) cmp (Item (snprintf_key k) NULL).
Proof.
  unfold HashTable.hash_get.
  by destruct (list_find (ht !!! index k) cmp (Item (snprintf_key k) NULL)).
Qed.

Lemma hash_lookup_chain ht k :
  hash_lookup ht k = chain_val (ht !!! index k) (snprintf_key k).
Proof.
  unfold HashTable.hash_lookup, chain_val. rewrite hash_get_chain.
  by destruct (list_find (ht !!! index k) cmp (Item (snprintf_key k) NULL)).
Qed.

Lemma hash_put_chain ok (ht : Hashtable) k v :
  length ht = TABLE_SIZE →
  hash_put ok ht k v =
  ((chain_put ok (ht !!! index k) (snprintf_key k) v).1,
   <[index k := (chain_put ok (ht !!! index k) (snprintf_key k) v).2]> ht).
Proof.
  intros Hlen. unfold HashTable.hash_put, chain_put. rewrite hash_get_chain.
  destruct (list_find (ht !!! index k) cmp (Item (snprintf_key k) NULL)) as [j|];
    simpl.
  - rewrite store_insert; [done|]. rewrite Hlen. apply index_lt.
  - unfold list_add. by destruct ok.
Qed.

Lemma hash_put_length ok (ht : Hashtable) k v :
  length (hash_put ok ht k v).2 = length ht.
Proof.
  unfold HashTable.hash_put. destruct (hash_get ht k) as [[i j]|]; simpl.
  - unfold store. by rewrite length_alter.
  - unfold list_add. destruct ok; simpl; by rewrite length_insert.
Qed.

Lemma run_puts_length (ht : Hashtable) calls :
  length (run_puts ht calls) = length ht.
Proof.
  revert ht. induction calls as [|c calls IH]; intros ht; [done|].
  simpl. rewrite IH. apply hash_put_length.
Qed.

Lemma empty_table_length : length empty_table = TABLE_SIZE.
Proof. apply length_replicate. Qed.

(** After a successful [hash_put], a lookup of [k'] reads the new value
    when [k'] has the bucket and the stored key of [k], and what it read
    before otherwise. *)
Lemma hash_lookup_put ok (ht ht' : Hashtable) k v k' :
  length ht = TABLE_SIZE →
  hash_put ok ht k v = (true, ht') →
  hash_lookup ht' k' =
  if decide (index k' = index k ∧ snprintf_key k' = snprintf_key k)
  then Some v else hash_lookup ht k'.
Proof.
  intros Hlen. rewrite hash_put_chain by done.
  destruct (chain_put ok (ht !!! index k) (snprintf_key k) v) as [b l'] eqn:E.
  simpl. intros [= -> <-]. rewrite !hash_lookup_chain.
  assert (index k < length ht) by (rewrite Hlen; apply index_lt).
  destruct (decide (index k' = index k)) as [Hi|Hi].
  - rewrite Hi, list_lookup_total_insert_eq by done.
    rewrite (chain_val_put _ _ _ _ _ _ E).
    repeat case_decide; try done; exfalso; tauto.
  - rewrite list_lookup_total_insert_ne by done.
    rewrite decide_False; [done|]. by intros [? _].
Qed.

(** A failed [hash_put] leaves the table as it was. *)
Lemma hash_put_false ok (ht ht' : Hashtable) k v :
  length ht = TABLE_SIZE →
  hash_put ok ht k v = (false, ht') →
  ht' = ht ∧ hash_get ht k = None ∧ ok = false.
Proof.
  intros Hlen. rewrite hash_put_chain by done.
  destruct (chain_put ok (ht !!! index k) (snprintf_key k) v) as [b l'] eqn:E.
  simpl. intros [= -> <-]. apply chain_put_false in E as (-> & Hn & ->).
  split_and!; [|by rewrite hash_get_chain, (proj2 (list_find_None _ _) Hn)|done].
  apply list_insert_id. apply list_lookup_lookup_total_lt.
  rewrite Hlen. apply index_lt.
Qed.

End WithHash.

Section Invariant.

Variable hash : string -> N.

Abbreviation table_inv := (table_inv hash).
Abbreviation index := (index hash).
Abbreviation hash_get := (hash_get hash).
Abbreviation hash_put := (hash_put hash).
Abbreviation hash_lookup := (hash_lookup hash).
Abbreviation run_puts := (run_puts hash).

(** The keys of the chain of bucket [i] after a [hash_put]. *)
Lemma hash_put_keys ok (ht : Hashtable) k v i :
  length ht = TABLE_SIZE →
  keys ((hash_put ok ht k v).2 !!! i) =
  if decide (i = index k ∧ (hash_put ok ht k v).1 = true
             ∧ snprintf_key k ∉ keys (ht !!! i))
  then snprintf_key k :: keys (ht !!! i) else keys (ht !!! i).
Proof.
  intros Hlen. rewrite hash_put_chain by done. simpl.
  assert (index k < length ht) by (rewrite Hlen; apply index_lt).
  destruct (decide (i = index k)) as [->|Hi].
  - rewrite list_lookup_total_insert_eq by done.
    destruct (chain_put ok (ht !!! index k) (snprintf_key k) v) as [b l'] eqn:E.
    simpl. destruct b.
    + rewrite (chain_put_keys _ _ _ _ _ E).
      repeat case_decide; try done; exfalso; tauto.
    + apply chain_put_false in E as (-> & _). rewrite decide_False; [done|].
      by intros (_ & ? & _).
  - rewrite list_lookup_total_insert_ne by done. rewrite decide_False; [done|].
    by intros [? _].
Qed.

Lemma table_inv_empty : table_inv [] empty_table.
Proof.
  split; [apply empty_table_length|]. intros i. rewrite empty_table_lookup.
  split; [apply NoDup_nil_2|]. by intros s ?%elem_of_nil.
Qed.

Lemma table_inv_mono ks ks' ht :
  ks ⊆ ks' → table_inv ks ht → table_inv ks' ht.
Proof.
  intros Hsub [Hlen H]. split; [done|]. intros i. destruct (H i) as [Hnd Hs].
  split; [done|]. intros s (k & ? & ? & ?)%Hs. exists k. split_and!; auto.
Qed.

Lemma table_inv_put ks ht ok k v :
  table_inv ks ht → table_inv (ks ++ [k]) (hash_put ok ht k v).2.
Proof.
  intros [Hlen H]. split; [by rewrite hash_put_length|]. intros i.
  destruct (H i) as [Hnd Hs]. rewrite hash_put_keys by done. case_decide as Hd.
  - destruct Hd as (-> & _ & Hn). split; [by apply NoDup_cons|].
    intros s [->|Hin]%elem_of_cons.
    + exists k. split_and!; [|done..]. apply elem_of_app. right. apply list_elem_of_here.
    + destruct (Hs s Hin) as (k' & ? & ? & ?). exists k'.
      split_and!; [|done..]. apply elem_of_app. by left.
  - split; [done|]. intros s Hin. destruct (Hs s Hin) as (k' & ? & ? & ?).
    exists k'. split_and!; [|done..]. apply elem_of_app. by left.
Qed.

Lemma table_inv_run_puts ks ht calls :
  table_inv ks ht →
  table_inv (ks ++ ((fun c : put_call => c.1.2) <$> calls)) (run_puts ht calls).
Proof.
  revert ks ht. induction calls as [|c calls IH]; intros ks ht Hinv; simpl.
  - by rewrite app_nil_r.
  - rewrite cons_middle, app_assoc. apply IH. by apply table_inv_put.
Qed.

Lemma table_inv_reachable calls :
  table_inv (call_keys calls) (run_puts empty_table calls).
Proof. apply (table_inv_run_puts [] empty_table calls), table_inv_empty. Qed.

(** With keys that fit, a stored key is a key that was put, and it sits in
    the bucket it hashes to. *)
Lemma table_inv_fits ks ht i s :
  table_inv ks ht → Forall fits ks → s ∈ keys (ht !!! i) →
  s ∈ ks ∧ index s = i.
Proof.
  intros [_ H] Hfit Hs. destruct (H i) as [_ Hk].
  destruct (Hk s Hs) as (k & Hin & Htr & Hi).
  rewrite snprintf_key_short in Htr; [by subst|].
  by apply (proj1 (Forall_forall _ _) Hfit).
Qed.

Lemma table_inv_NoDup ks ht :
  table_inv ks ht → Forall fits ks → NoDup (stored_keys ht).
Proof.
  intros Hinv Hfit. apply (NoDup_stored_keys index ht 0).
  - intros i _. apply Hinv.
  - intros i s _ Hs. by destruct (table_inv_fits ks ht i s).
Qed.

Lemma hash_get_is_Some ht k :
  is_Some (hash_get ht k) ↔ snprintf_key k ∈ keys (ht !!! index k).
Proof.
  rewrite hash_get_chain, <- list_find_is_Some.
  destruct (list_find (ht !!! index k) cmp (Item (snprintf_key k) NULL));
    simpl; split; intros [? ?]; eauto; done.
Qed.

Lemma hash_get_None ht k :
  hash_get ht k = None ↔ snprintf_key k ∉ keys (ht !!! index k).
Proof.
  rewrite <- hash_get_is_Some. destruct (hash_get ht k); split; try done.
  - intros H. exfalso. apply H. eauto.
Qed.

(** With keys that fit, a key is stored somewhere in the table exactly
    when [hash_get] finds it. *)
Lemma stored_iff_found ks ht k :
  table_inv ks ht → Forall fits ks → fits k →
  k ∈ stored_keys ht ↔ is_Some (hash_get ht k).
Proof.
  intros Hinv Hfit Hk. rewrite hash_get_is_Some, snprintf_key_short by done.
  rewrite elem_of_stored_keys. split.
  - intros (i & _ & Hs). by destruct (table_inv_fits ks ht i k) as [_ <-].
  - intros Hs. exists (index k). split; [|done].
    destruct Hinv as [-> _]. apply index_lt.
Qed.

(** The same for [slots_inv], the keys being those whose put returned
    [true]. *)
Lemma slots_inv_empty : slots_inv hash [] empty_table.
Proof.
  split; [apply empty_table_length|]. intros i. rewrite empty_table_lookup.
  split; [apply NoDup_nil_2|]. intros s. split.
  - by intros ?%elem_of_nil.
  - by intros (k & ?%elem_of_nil & _).
Qed.

Lemma slots_inv_put ks ht ok k v :
  slots_inv hash ks ht →
  slots_inv hash (ks ++ (if (hash_put ok ht k v).1 then [k] else []))
    (hash_put ok ht k v).2.
Proof.
  intros [Hlen H]. split; [by rewrite hash_put_length|]. intros i.
  destruct (H i) as [Hnd Hs]. rewrite hash_put_keys by done.
  destruct (hash_put ok ht k v).1 eqn:Hr.
  - case_decide as Hd.
    + destruct Hd as (-> & _ & Hn). split; [by apply NoDup_cons|].
      intros s. rewrite elem_of_cons, Hs. split.
      * intros [->|(k' & ? & ? & ?)].
        -- exists k. split_and!; [|done..]. apply elem_of_app. right.
           apply list_elem_of_here.
        -- exists k'. split_and!; [|done..]. apply elem_of_app. by left.
      * intros (k' & [Hin|Hin%list_elem_of_singleton]%elem_of_app & Hk & Hi).
        -- right. by exists k'.
        -- subst k'. by left.
    + split; [done|]. intros s. rewrite Hs. split.
      * intros (k' & ? & ? & ?). exists k'. split_and!; [|done..].
        apply elem_of_app. by left.
      * intros (k' & [Hin|Hin%list_elem_of_singleton]%elem_of_app & Hk & Hi).
        -- by exists k'.
        -- subst k'. apply Hs. destruct (decide (snprintf_key k ∈ keys (ht !!! i)))
             as [Hin|Hn]; [by subst s|]. exfalso. apply Hd. by rewrite Hi.
  - rewrite decide_False by (by intros (_ & ? & _)). by rewrite app_nil_r.
Qed.

Lemma slots_inv_run_puts ks ht calls :
  slots_inv hash ks ht →
  slots_inv hash (ks ++ inserted_keys hash ht calls) (run_puts ht calls).
Proof.
  revert ks ht. induction calls as [|c calls IH]; intros ks ht Hinv; simpl.
  - by rewrite app_nil_r.
  - rewrite app_assoc. apply IH. by apply slots_inv_put.
Qed.

Lemma slots_inv_reachable calls :
  slots_inv hash (inserted_keys hash empty_table calls) (run_puts empty_table calls).
Proof. apply (slots_inv_run_puts [] empty_table calls), slots_inv_empty. Qed.

Lemma slots_inv_table_inv ks ht : slots_inv hash ks ht → table_inv ks ht.
Proof.
  intros [Hlen H]. split; [done|]. intros i. destruct (H i) as [Hnd Hs].
  split; [done|]. intros s. apply Hs.
Qed.


End Invariant.

Section PutGet.

Variable hash : string -> N.

Abbreviation index := (index hash).
Abbreviation hash_get := (hash_get hash).
Abbreviation hash_put := (hash_put hash).
Abbreviation hash_lookup := (hash_lookup hash).
Abbreviation run_puts := (run_puts hash).

Lemma hash_put_found ok (ht : Hashtable) k v p :
  hash_get ht k = Some p → hash_put ok ht k v = (true, store ht p v).
Proof. intros H. unfold HashTable.hash_put. by rewrite H. Qed.

Lemma hash_put_new (ht : Hashtable) k v :
  hash_get ht k = None →
  hash_put true ht k v =
  (true, <[index k := Item (snprintf_key k) v :: ht !!! index k]> ht).
Proof. intros H. unfold HashTable.hash_put. by rewrite H. Qed.

Lemma hash_get_Some_inv (ht : Hashtable) k p :
  hash_get ht k = Some p →
  ∃ j, p = (index k, j) ∧
       list_find (ht !!! index k) cmp (Item (snprintf_key k) NULL) = Some j.
Proof.
  rewrite hash_get_chain.
  destruct (list_find (ht !!! index k) cmp (Item (snprintf_key k) NULL)) as [j|];
    [|done].
  intros [= <-]. by exists j.
Qed.


Lemma stored_keys_insert (ht : Hashtable) i l :
  keys l = keys (ht !!! i) → stored_keys (<[i := l]> ht) = stored_keys ht.
Proof.
  revert i. induction ht as [|l0 ht IH]; intros [|i] Hk; simpl in *; try done.
  - by rewrite !stored_keys_cons, Hk.
  - rewrite !stored_keys_cons. f_equal. by apply IH.
Qed.

Lemma stored_keys_store (ht : Hashtable) k p v :
  length ht = TABLE_SIZE → hash_get ht k = Some p →
  stored_keys (store ht p v) = stored_keys ht.
Proof.
  intros Hlen (j & -> & Hj)%hash_get_Some_inv.
  rewrite store_insert by (rewrite Hlen; apply index_lt).
  apply stored_keys_insert, keys_alter_id.
Qed.


(** Two keys with the same truncation that hash to different buckets are
    both stored, under the same stored key. *)
Lemma same_stored_key_twice k1 k2 v1 v2 :
  snprintf_key k1 = snprintf_key k2 → index k1 ≠ index k2 →
  ¬ NoDup (stored_keys (run_puts empty_table [(true, k1, v1); (true, k2, v2)])).
Proof.
  intros Htr Hidx Hnd. simpl in Hnd.
  pose proof empty_table_length as Hlen.
  assert (hash_get empty_table k1 = None) as G1.
  { apply hash_get_None. rewrite empty_table_lookup. apply not_elem_of_nil. }
  rewrite (hash_put_new _ _ _ G1) in Hnd. simpl in Hnd.
  set (ht1 := <[index k1 := _]> empty_table) in *.
  assert (length ht1 = TABLE_SIZE) as Hlen1 by (subst ht1; by rewrite length_insert).
  assert (hash_get ht1 k2 = None) as G2.
  { apply hash_get_None. subst ht1.
    rewrite list_lookup_total_insert_ne, empty_table_lookup by done.
    apply not_elem_of_nil. }
  rewrite (hash_put_new _ _ _ G2) in Hnd. simpl in Hnd.
  set (ht2 := <[index k2 := _]> ht1) in *.
  assert (snprintf_key k1 ∈ keys (ht2 !!! index k1)) as H1.
  { subst ht2 ht1. rewrite list_lookup_total_insert_ne by congruence.
    rewrite list_lookup_total_insert_eq by (rewrite Hlen; apply index_lt).
    rewrite empty_table_lookup. apply list_elem_of_here. }
  assert (snprintf_key k1 ∈ keys (ht2 !!! index k2)) as H2.
  { subst ht2. rewrite list_lookup_total_insert_eq by (rewrite Hlen1; apply index_lt).
    rewrite Htr. apply list_elem_of_here. }
  assert (length ht2 = TABLE_SIZE) as Hlen2 by (subst ht2; by rewrite length_insert).
  clearbody ht2. clear -Hnd H1 H2 Hidx Hlen2.
  pose proof (index_lt hash k1) as L1. pose proof (index_lt hash k2) as L2.
  rewrite <- Hlen2 in L1, L2.
  revert Hnd H1 H2 L1 L2 Hidx. generalize (index k1) (index k2) (snprintf_key k1).
  clear. induction ht2 as [|l ht IH]; intros i1 i2 s Hnd H1 H2 L1 L2 Hne.
  - simpl in L1. lia.
  - rewrite stored_keys_cons in Hnd. apply NoDup_app in Hnd as (_ & Hdis & Hnd).
    destruct i1 as [|i1], i2 as [|i2]; simpl in *; try done.
    + apply (Hdis s H1). apply elem_of_stored_keys. exists i2. split; [lia|done].
    + apply (Hdis s H2). apply elem_of_stored_keys. exists i1. split; [lia|done].
    + apply (IH i1 i2 s); try done; lia.
Qed.


(** X23: after every sequence of [hash_put] calls, whatever the hash and
    the lengths of the keys: no chain stores a key twice; a put whose truncated
    key is stored in the chain of the bucket it hashes to succeeds without
    allocating, leaves the stored keys as they are and makes that entry hold
    the new value. When the bucket of a key depends on its first 254 bytes
    only, no key is stored twice in the whole table; when two keys with the
    same first 254 bytes hash to different buckets, putting both stores the
    same key twice. *)
Theorem hash_put_one_entry_per_slot (calls : list put_call) :
  let ht := run_puts empty_table calls in
  (∀ i, NoDup (keys (ht !!! i)))
  ∧ (∀ ok k v,
       snprintf_key k ∈ keys (ht !!! index k) →
       (hash_put ok ht k v).1 = true ∧
       stored_keys (hash_put ok ht k v).2 = stored_keys ht ∧
       chain_val ((hash_put ok ht k v).2 !!! index k) (snprintf_key k) = Some v ∧
       hash_lookup (hash_put ok ht k v).2 k = Some v)
  ∧ ((∀ k, index (snprintf_key k) = index k) → NoDup (stored_keys ht))
  ∧ (∀ k1 k2 v1 v2,
       snprintf_key k1 = snprintf_key k2 → index k1 ≠ index k2 →
       ¬ NoDup (stored_keys (run_puts empty_table [(true, k1, v1); (true, k2, v2)]))).
Proof.
  intros ht. pose proof (slots_inv_reachable hash calls) as Hinv. fold ht in Hinv.
  assert (length ht = TABLE_SIZE) as Hlen by apply Hinv.
  split_and!.
  - intros i. apply Hinv.
  - intros ok k v [p Hp]%hash_get_is_Some.
    pose proof (hash_lookup_put hash ok ht _ k v k Hlen
                  (hash_put_found ok ht k v p Hp)) as HL.
    rewrite decide_True in HL by done.
    rewrite (hash_put_found ok _ _ v _ Hp). simpl.
    split_and!; [done|by apply (stored_keys_store _ k)|by rewrite <- hash_lookup_chain|done].
  - intros Hh. apply (NoDup_stored_keys index ht 0).
    + intros i _. apply Hinv.
    + intros i s _ Hs. apply Hinv in Hs as (k & _ & <- & <-). apply Hh.
  - intros k1 k2 v1 v2. apply same_stored_key_twice.
Qed.

End PutGet.

(** *** Keys longer than the key buffer *)

Lemma pad_length n : String.length (pad n) = n.
Proof. induction n; simpl; auto. Qed.

Lemma long_key_snprintf suffix : snprintf_key (long_key suffix) = pad (KEY_SIZE - 1).
Proof. apply snprintf_key_app, pad_length. Qed.





(** The same on the sample hash and two explicit keys of 256 bytes. *)
Example hash_get_finds_long_key_never_put :
  index sample_hash (long_key "bz") = index sample_hash (long_key "cY")
  ∧ hash_lookup sample_hash
      (run_puts sample_hash empty_table [(true, long_key "bz", 1%N)])
      (long_key "cY") = Some 1%N.
Proof. by vm_compute. Qed.


(** A key put twice keeps one entry, which holds the second value, also
    when the second put finds no memory. Two keys of 255 bytes that agree
    on their first 254 bytes are stored once under a hash that sends every
    key to bucket 0, and twice under the sample hash, which sends them to
    different buckets. *)
Lemma hash_put_one_entry_per_slot_witness :
  hash_lookup sample_hash
    (run_puts sample_hash empty_table [(true, "a.txt", 1%N); (false, "a.txt", 2%N)])
    "a.txt" = Some 2%N
  ∧ NoDup (keys (run_puts sample_hash empty_table
                   [(true, "a.txt", 1%N); (false, "a.txt", 2%N)]
                 !!! index sample_hash "a.txt"))
  ∧ NoDup (stored_keys (run_puts (fun _ => 0%N) empty_table
                          [(true, long_key "b", 1%N); (true, long_key "c", 2%N)]))
  ∧ ¬ NoDup (stored_keys (run_puts sample_hash empty_table
                            [(true, long_key "b", 1%N); (true, long_key "c", 2%N)])).
Proof.
  split_and!.
  - by vm_compute.
  - exact (proj1 (hash_put_one_entry_per_slot sample_hash
                    [(true, "a.txt", 1%N); (false, "a.txt", 2%N)]) _).
  - apply (hash_put_one_entry_per_slot (fun _ => 0%N)
             [(true, long_key "b", 1%N); (true, long_key "c", 2%N)]).
    reflexivity.
  - apply (hash_put_one_entry_per_slot sample_hash []).
    + by rewrite !long_key_snprintf.
    + by vm_compute.
Defined.

(** *** Further properties of the table and of its chains *)

Lemma Forall2_list_create oks (idxs : list nat) (t : list (list item)) :
  Forall2 (fun i y => list_create (oks i) = Some y) idxs t →
  t = replicate (length idxs) [] ∧ ∀ i, i ∈ idxs → oks i = true.
Proof.
  induction 1 as [|i y idxs t Hy _ [IH1 IH2]]; simpl.
  - split; [done|]. by intros i ?%elem_of_nil.
  - unfold list_create in Hy. destruct (oks i) eqn:E; [|done].
    injection Hy as <-. split; [by rewrite <- IH1|].
    intros i' [->|Hin]%elem_of_cons; auto.
Qed.

(** X1: [hash_create] returns null exactly when the allocation of the
    table or of one of its [TABLE_SIZE] chain headers fails; the table it
    returns otherwise has [TABLE_SIZE] buckets, no entry, and every lookup
    in it returns null. *)
Theorem hash_create_result (hash : string → N) (malloc_ok : bool)
    (oks : nat → bool) :
  (hash_create malloc_ok oks = None ↔
     malloc_ok = false ∨ ∃ i, i < TABLE_SIZE ∧ oks i = false)
  ∧ (∀ t, hash_create malloc_ok oks = Some t →
       length t = TABLE_SIZE ∧ entries t = [] ∧ ∀ k, hash_get hash t k = None).
Proof.
  unfold hash_create. split.
  - destruct malloc_ok; [|split; [by left|done]].
    rewrite mapM_None. rewrite Exists_exists. split.
    + intros (i & Hin & Hi). right. exists i.
      apply elem_of_seq in Hin. split; [lia|].
      unfold list_create in Hi. by destruct (oks i).
    + intros [?|(i & Hi & Hf)]; [done|]. exists i. split.
      * apply elem_of_seq. lia.
      * unfold list_create. by rewrite Hf.
  - intros t Ht. destruct malloc_ok; [|done].
    apply mapM_Some in Ht. apply Forall2_list_create in Ht as [-> _].
    rewrite length_seq. fold empty_table. split_and!.
    + apply empty_table_length.
    + unfold entries, empty_table. generalize TABLE_SIZE.
      intros n. induction n as [|n IH]; simpl; auto.
    + intros k. apply hash_get_None. rewrite empty_table_lookup.
      apply not_elem_of_nil.
Qed.

(** X2: after a [hash_put] that returned true, a lookup of the same key
    reads the value put; a lookup of a key with another bucket or another
    truncated key reads what it read before; so two different keys of at
    most 254 bytes never disturb each other. *)
Theorem hash_put_then_lookup (hash : string → N) (ok : bool)
    (ht : list (list item)) (k : string) (v : rwlock_ptr) :
  length ht = TABLE_SIZE →
  (hash_put hash ok ht k v).1 = true →
  let ht' := (hash_put hash ok ht k v).2 in
  hash_lookup hash ht' k = Some v
  ∧ (∀ k', index hash k' ≠ index hash k ∨ snprintf_key k' ≠ snprintf_key k →
           hash_lookup hash ht' k' = hash_lookup hash ht k')
  ∧ (∀ k', fits k → fits k' → k' ≠ k →
           hash_lookup hash ht' k' = hash_lookup hash ht k').
Proof.
  intros Hlen Hok ht'.
  assert (hash_put hash ok ht k v = (true, ht')) as E.
  { subst ht'. destruct (hash_put hash ok ht k v). simpl in *. by subst. }
  pose proof (hash_lookup_put hash ok ht ht' k v) as HL.
  assert (∀ k', index hash k' ≠ index hash k ∨ snprintf_key k' ≠ snprintf_key k →
                hash_lookup hash ht' k' = hash_lookup hash ht k') as Hframe.
  { intros k' Hd. rewrite (HL k' Hlen E). rewrite decide_False; [done|].
    intros [? ?]. by destruct Hd. }
  split_and!.
  - rewrite (HL k Hlen E). by rewrite decide_True.
  - done.
  - intros k' Hk Hk' Hne. apply Hframe. right.
    by rewrite !snprintf_key_short.
Qed.

Lemma hash_put_then_lookup_witness :
  hash_lookup sample_hash (hash_put sample_hash true empty_table "a.txt" 7%N).2
    "a.txt" = Some 7%N.
Proof.
  by apply (hash_put_then_lookup sample_hash true empty_table "a.txt" 7%N
              eq_refl eq_refl).
Defined.

(** X3: [hash_put] returns false only for a key that [hash_get] does not
    find while the node cannot be allocated, and then the table is as it
    was; on a key that is found it returns true whatever the allocator
    answers. *)
Theorem hash_put_failure (hash : string → N) (ok : bool)
    (ht : list (list item)) (k : string) (v : rwlock_ptr) :
  length ht = TABLE_SIZE →
  ((hash_put hash ok ht k v).1 = false ↔ hash_get hash ht k = None ∧ ok = false)
  ∧ ((hash_put hash ok ht k v).1 = false → (hash_put hash ok ht k v).2 = ht).
Proof.
  intros Hlen.
  destruct (hash_put hash ok ht k v) as [b ht'] eqn:E. simpl.
  destruct b.
  - split; [|done]. split; [done|]. intros [Hn ->].
    unfold hash_put in E. rewrite Hn in E. unfold list_add in E. simpl in E.
    by injection E.
  - apply (hash_put_false hash) in E as (-> & Hn & ->); [|done]. by split.
Qed.

Lemma hash_put_failure_witness :
  (hash_put sample_hash false empty_table "a.txt" 7%N).2 = empty_table.
Proof.
  by apply (hash_put_failure sample_hash false empty_table "a.txt" 7%N eq_refl).
Defined.

Lemma entries_insert_length (ht : list (list item)) i l :
  i < length ht →
  length (entries (<[i := l]> ht)) + length (ht !!! i)
  = length (entries ht) + length l.
Proof.
  unfold entries. revert i. induction ht as [|l0 ht IH]; intros [|i] Hi;
    simpl in *; try lia.
  - rewrite !length_app. lia.
  - rewrite !length_app. specialize (IH i ltac:(lia)). lia.
Qed.

(** X4: [hash_put] keeps the number of buckets; it adds exactly one live
    entry when the key is not found and the node is allocated, and none
    otherwise. *)
Theorem hash_put_entry_count (hash : string → N) (ok : bool)
    (ht : list (list item)) (k : string) (v : rwlock_ptr) :
  length ht = TABLE_SIZE →
  let ht' := (hash_put hash ok ht k v).2 in
  length ht' = TABLE_SIZE
  ∧ length (entries ht') =
    (length (entries ht) +
     match hash_get hash ht k with
     | Some _ => 0
     | None => if ok then 1 else 0
     end)%nat.
Proof.
  intros Hlen ht'. subst ht'. split; [by rewrite hash_put_length|].
  assert (index hash k < length ht) as Hi by (rewrite Hlen; apply index_lt).
  rewrite hash_put_chain by done. simpl.
  pose proof (entries_insert_length ht (index hash k)
                (chain_put ok (ht !!! index hash k) (snprintf_key k) v).2 Hi) as HE.
  destruct (chain_put ok (ht !!! index hash k) (snprintf_key k) v) as [b l'] eqn:E.
  pose proof (chain_put_length _ _ _ _ _ _ E) as EL. simpl in HE. simpl.
  destruct (hash_get hash ht k) as [p|] eqn:Hp.
  - rewrite decide_True in EL; [lia|]. apply hash_get_is_Some. by rewrite Hp.
  - apply hash_get_None in Hp. rewrite decide_False in EL by done.
    assert (b = ok) as ->.
    { unfold chain_put, list_add in E.
      rewrite (proj2 (list_find_None _ _) Hp) in E. by destruct ok; injection E. }
    destruct ok; lia.
Qed.

Lemma hash_put_entry_count_witness :
  length (entries (hash_put sample_hash true empty_table "a.txt" 7%N).2) = 1.
Proof.
  by apply (hash_put_entry_count sample_hash true empty_table "a.txt" 7%N eq_refl).
Defined.

Lemma cmp_sym a b : cmp a b = cmp b a.
Proof. unfold cmp. apply String.eqb_sym. Qed.

Lemma list_find_key_only l i :
  list_find l cmp i = list_find l cmp (Item (key i) NULL).
Proof. induction l as [|d l IH]; simpl; [done|]. by rewrite IH. Qed.

Lemma remove_first_delete l i :
  remove_first l cmp i =
  match list_find l cmp i with Some j => delete j l | None => l end.
Proof.
  induction l as [|d l IH]; simpl; [done|]. rewrite (cmp_sym i d).
  destruct (cmp d i); [done|]. rewrite IH.
  by destruct (list_find l cmp i).
Qed.

Lemma list_remove_delete l i :
  list_remove l cmp i =
  match list_find l cmp i with Some j => delete j l | None => l end.
Proof.
  unfold list_remove. destruct l as [|d l]; [done|].
  change (if cmp i d then l else d :: remove_first l cmp i)
    with (remove_first (d :: l) cmp i).
  rewrite remove_first_delete. by destruct (list_find (d :: l) cmp i).
Qed.

Lemma chain_val_cons d l s :
  chain_val (d :: l) s = if decide (key d = s) then Some (id d) else chain_val l s.
Proof.
  unfold chain_val. simpl. unfold cmp at 1. simpl. case_decide as H.
  - by rewrite (proj2 (String.eqb_eq _ _) H).
  - rewrite (proj2 (String.eqb_neq _ _) H).
    by destruct (list_find l cmp (Item s NULL)).
Qed.

(** X5: with the key comparator, [list_remove] leaves a chain that does
    not hold the key as it is, and otherwise unlinks exactly the node that
    [list_find] finds, the first one with that key: the chain is one node
    shorter and the other nodes keep their order. *)
Theorem list_remove_first_match (l : list item) (i : item) :
  (key i ∉ keys l → list_remove l cmp i = l)
  ∧ (∀ j, list_find l cmp i = Some j →
          list_remove l cmp i = take j l ++ drop (S j) l
          ∧ S (length (list_remove l cmp i)) = length l).
Proof.
  rewrite list_remove_delete. split.
  - intros Hn. rewrite list_find_key_only.
    by rewrite (proj2 (list_find_None _ _) Hn).
  - intros j Hj. rewrite Hj. rewrite delete_take_drop. split; [done|].
    rewrite list_find_key_only in Hj. apply list_find_lt in Hj.
    rewrite length_app, length_take, length_drop. lia.
Qed.

(** X6: [list_add] followed by [list_remove] of the same item gives the
    chain back; after [list_remove] on a chain without repeated keys the
    key is gone; and the value found under any other key is the same
    before and after. *)
Theorem list_add_remove (l : list item) (i : item) :
  list_remove (list_add true l i).2 cmp i = l
  ∧ (NoDup (keys l) → key i ∉ keys (list_remove l cmp i))
  ∧ (∀ s, s ≠ key i → chain_val (list_remove l cmp i) s = chain_val l s).
Proof.
  split_and!.
  - simpl. rewrite list_remove_delete. simpl. unfold cmp at 1.
    by rewrite String.eqb_refl.
  - rewrite list_remove_delete, <- remove_first_delete. unfold keys.
    induction l as [|d l IH]; simpl; [intros _; apply not_elem_of_nil|].
    intros [Hd Hnd]%NoDup_cons. unfold cmp at 1.
    destruct (String.eqb (key i) (key d)) eqn:E.
    + apply String.eqb_eq in E. by rewrite E.
    + apply String.eqb_neq in E. simpl. apply not_elem_of_cons. split; auto.
  - intros s Hs. rewrite list_remove_delete, <- remove_first_delete.
    induction l as [|d l IH]; simpl; [done|]. unfold cmp at 1.
    destruct (String.eqb (key i) (key d)) eqn:E.
    + apply String.eqb_eq in E. rewrite chain_val_cons.
      rewrite decide_False; [done|]. congruence.
    + by rewrite !chain_val_cons, IH.
Qed.

End HashTableFacts.

(** * Properties of the lock registry *)
Module RegistryFacts.
Import HashTable Registry HashTableFacts.

(** Prepending a node to a chain adds that one entry to the table. *)
Lemma entries_insert_cons (ht : list (list item)) i d :
  i < length ht →
  entries (<[i := d :: ht !!! i]> ht) ≡ₚ d :: entries ht.
Proof.
  unfold entries. revert i. induction ht as [|l ht IH]; intros [|i] Hi;
    simpl in *; try lia; [done|].
  rewrite (IH i) by lia. by rewrite Permutation_middle.
Qed.

Section GetFileLock.

Variable hash : string -> N.

Abbreviation index := (index hash).
Abbreviation hash_get := (hash_get hash).
Abbreviation hash_put := (hash_put hash).
Abbreviation hash_lookup := (hash_lookup hash).
Abbreviation get_file_lock := (get_file_lock hash).
Abbreviation run_calls := (run_calls hash).

Lemma get_file_lock_found a (ht : Hashtable) path p :
  hash_get ht path = Some p → get_file_lock a ht path = (load ht p, ht).
Proof. intros H. unfold Registry.get_file_lock. by rewrite H. Qed.

Lemma get_file_lock_new a (ht : Hashtable) path :
  hash_get ht path = None → rwlock_new_result a ≠ NULL → list_add_ok a = true →
  get_file_lock a ht path =
  (rwlock_new_result a,
   <[index path := Item (snprintf_key path) (rwlock_new_result a)
                   :: ht !!! index path]> ht).
Proof.
  intros H Hn Hok. unfold Registry.get_file_lock. rewrite H.
  apply N.eqb_neq in Hn. rewrite Hn, Hok. by rewrite hash_put_new.
Qed.

Lemma get_file_lock_length a (ht : Hashtable) path :
  length (get_file_lock a ht path).2 = length ht.
Proof.
  unfold Registry.get_file_lock. destruct (hash_get ht path); [done|].
  destruct (rwlock_new_result a =? NULL)%N; [done|].
  pose proof (hash_put_length hash (list_add_ok a) ht path (rwlock_new_result a)).
  destruct (hash_put (list_add_ok a) ht path (rwlock_new_result a)) as [[] ?]; done.
Qed.

Lemma run_calls_length (ht : Hashtable) calls :
  length (run_calls ht calls) = length ht.
Proof.
  revert ht. induction calls as [|c calls IH]; intros ht; [done|].
  simpl. rewrite IH. apply get_file_lock_length.
Qed.

(** A call that succeeds leaves its result stored under its path. *)
Lemma get_file_lock_stored a (ht : Hashtable) path :
  length ht = TABLE_SIZE →
  (get_file_lock a ht path).1 ≠ NULL →
  hash_lookup (get_file_lock a ht path).2 path = Some (get_file_lock a ht path).1.
Proof.
  intros Hlen. unfold Registry.get_file_lock.
  destruct (hash_get ht path) as [p|] eqn:Hp; simpl.
  - intros _. unfold HashTable.hash_lookup. by rewrite Hp.
  - destruct (rwlock_new_result a =? NULL)%N; [done|].
    destruct (hash_put (list_add_ok a) ht path (rwlock_new_result a))
      as [[] ht'] eqn:E; simpl; [|done].
    intros _. rewrite (hash_lookup_put hash _ _ _ _ _ path Hlen E).
    by rewrite decide_True.
Qed.

(** No call changes what is stored under another call's path. *)
Lemma get_file_lock_preserves a (ht : Hashtable) path path' r :
  length ht = TABLE_SIZE →
  hash_lookup ht path = Some r →
  hash_lookup (get_file_lock a ht path').2 path = Some r.
Proof.
  intros Hlen Hr. unfold Registry.get_file_lock.
  destruct (hash_get ht path') as [p|] eqn:Hp; [done|].
  destruct (rwlock_new_result a =? NULL)%N; [done|].
  destruct (hash_put (list_add_ok a) ht path' (rwlock_new_result a))
    as [[] ht'] eqn:E; simpl.
  - rewrite (hash_lookup_put hash _ _ _ _ _ path Hlen E).
    case_decide as Hd; [|done]. destruct Hd as [Hi Hk].
    apply hash_get_None in Hp. exfalso. apply Hp. rewrite <- Hi, <- Hk.
    apply hash_get_is_Some. unfold HashTable.hash_lookup in Hr.
    destruct (hash_get ht path); [by eauto|done].
  - by apply hash_put_false in E as (-> & _).
Qed.

Lemma run_calls_preserves (ht : Hashtable) calls path r :
  length ht = TABLE_SIZE →
  hash_lookup ht path = Some r →
  hash_lookup (run_calls ht calls) path = Some r.
Proof.
  revert ht. induction calls as [|c calls IH]; intros ht Hlen Hr; [done|].
  simpl. apply IH.
  - by rewrite get_file_lock_length.
  - by apply get_file_lock_preserves.
Qed.

(** Once a call for [path] has succeeded, every later call for [path]
    returns the same lock, whatever calls were made in between and whatever
    the allocator answers. *)
Lemma get_file_lock_again a1 a2 (ht : Hashtable) between path :
  length ht = TABLE_SIZE →
  (get_file_lock a1 ht path).1 ≠ NULL →
  (get_file_lock a2 (run_calls (get_file_lock a1 ht path).2 between) path).1
  = (get_file_lock a1 ht path).1.
Proof.
  intros Hlen Hr.
  pose proof (get_file_lock_stored a1 ht path Hlen Hr) as Hs.
  apply (run_calls_preserves _ between) in Hs;
    [|by rewrite get_file_lock_length].
  unfold HashTable.hash_lookup in Hs.
  destruct (hash_get (run_calls (get_file_lock a1 ht path).2 between) path)
    as [p|] eqn:Hp; [|done].
  rewrite (get_file_lock_found a2 _ _ _ Hp). simpl in *. congruence.
Qed.

(** A node of the chain of the path's bucket whose key is the truncated
    path, with no such node before it, is the one [hash_get] finds. *)
Lemma hash_get_first_match (ht : Hashtable) path l1 d l2 :
  ht !!! index path = l1 ++ d :: l2 → key d = snprintf_key path →
  snprintf_key path ∉ keys l1 →
  hash_get ht path = Some (index path, length l1) ∧
  load ht (index path, length l1) = id d.
Proof.
  intros Hl Hk Hn. split.
  - rewrite hash_get_chain, Hl.
    rewrite (proj2 (list_find_Some (l1 ++ d :: l2) (snprintf_key path) (length l1)));
      [done|].
    split.
    + exists d. split; [|done]. by rewrite list_lookup_middle.
    + by rewrite take_app_length.
  - unfold load. simpl. rewrite Hl.
    by rewrite (list_lookup_total_middle l1 l2 d (length l1)).
Qed.

(** C1: [get_file_lock] returns the lock stored under the path when
    [hash_get] finds one and leaves the table as it is; otherwise, when
    [rwlock_new] and the insertion succeed, it returns the new lock and
    has prepended it under the path; and two calls for the same path that
    both succeed return the same lock, whatever calls were made in between.
    In terms of what the table holds: when the chain of the path's bucket
    has a node with the truncated path as key, the lock of the first such
    node is returned and the table is left as it is; when it has none, and
    [rwlock_new] and the insertion succeed, the new lock is returned, the
    table has that one entry more, and a later call for the path returns
    the same lock. *)
Theorem get_file_lock_one_lock_per_path (ht : Hashtable) (a1 a2 : alloc)
    (between : list lock_call) (path : string) :
  length ht = TABLE_SIZE →
  let r1 := get_file_lock a1 ht path in
  let r2 := get_file_lock a2 (run_calls r1.2 between) path in
  (∀ p, hash_get ht path = Some p → r1 = (load ht p, ht))
  ∧ (hash_get ht path = None →
     rwlock_new_result a1 ≠ NULL → list_add_ok a1 = true →
     r1.1 = rwlock_new_result a1
     ∧ r1.2 = <[index path := Item (snprintf_key path) (rwlock_new_result a1)
                              :: ht !!! index path]> ht
     ∧ hash_lookup r1.2 path = Some (rwlock_new_result a1))
  ∧ (r1.1 ≠ NULL → r2.1 ≠ NULL → r1.1 = r2.1)
  ∧ (∀ l1 d l2,
       ht !!! index path = l1 ++ d :: l2 → key d = snprintf_key path →
       snprintf_key path ∉ keys l1 →
       r1 = (id d, ht))
  ∧ (snprintf_key path ∉ keys (ht !!! index path) →
     rwlock_new_result a1 ≠ NULL → list_add_ok a1 = true →
     r1.1 = rwlock_new_result a1
     ∧ r1.2 = <[index path := Item (snprintf_key path) (rwlock_new_result a1)
                              :: ht !!! index path]> ht
     ∧ entries r1.2 ≡ₚ Item (snprintf_key path) (rwlock_new_result a1) :: entries ht
     ∧ r2.1 = rwlock_new_result a1).
Proof.
  intros Hlen r1 r2.
  assert (hash_get ht path = None →
          rwlock_new_result a1 ≠ NULL → list_add_ok a1 = true →
          r1 = (rwlock_new_result a1,
                <[index path := Item (snprintf_key path) (rwlock_new_result a1)
                                :: ht !!! index path]> ht)) as Hnew.
  { intros Hp Hn Hok. subst r1. by apply get_file_lock_new. }
  split_and!.
  - intros p Hp. by apply get_file_lock_found.
  - intros Hp Hn Hok. pose proof (get_file_lock_stored a1 ht path Hlen) as Hs.
    fold r1 in Hs. rewrite (Hnew Hp Hn Hok) in *. simpl in *.
    split_and!; [done..|]. by apply Hs.
  - intros H1 _. subst r1 r2. symmetry. by apply get_file_lock_again.
  - intros l1 d l2 Hl Hk Hn.
    destruct (hash_get_first_match ht path l1 d l2 Hl Hk Hn) as [Hp <-].
    by apply get_file_lock_found.
  - intros Hp%hash_get_None Hn Hok.
    assert (r2.1 = r1.1) as H2.
    { apply (get_file_lock_again a1 a2 ht between path Hlen).
      fold r1. by rewrite (Hnew Hp Hn Hok). }
    rewrite H2. rewrite (Hnew Hp Hn Hok). simpl. split_and!; [done..| |done].
    apply entries_insert_cons. rewrite Hlen. apply index_lt.
Qed.

End GetFileLock.

(** On the created table the first call for a path returns the lock that
    [rwlock_new] made, a call for another path another one, and a third
    call for the first path the first lock again. *)
Lemma get_file_lock_one_lock_per_path_witness :
  length empty_table = TABLE_SIZE ∧
  ("a.txt" ∉ keys (empty_table !!! index sample_hash "a.txt")) ∧
  rwlock_new_result (Alloc 7%N true) ≠ NULL ∧
  list_add_ok (Alloc 7%N true) = true ∧
  (get_file_lock sample_hash (Alloc 7%N true) empty_table "a.txt").1 = 7%N ∧
  (get_file_lock sample_hash (Alloc 11%N true)
     (run_calls sample_hash
        (get_file_lock sample_hash (Alloc 7%N true) empty_table "a.txt").2
        [(Alloc 9%N true, "b.txt")]) "a.txt").1 = 7%N.
Proof.
  assert ("a.txt" ∉ keys (empty_table !!! index sample_hash "a.txt")) as Hn.
  { rewrite HashTableFacts.empty_table_lookup. apply not_elem_of_nil. }
  assert (rwlock_new_result (Alloc 7%N true) ≠ NULL) as H7 by done.
  split_and!; [reflexivity|done|done|reflexivity| |].
  - apply (get_file_lock_one_lock_per_path sample_hash empty_table
             (Alloc 7%N true) (Alloc 11%N true) [(Alloc 9%N true, "b.txt")] "a.txt"
             eq_refl); [exact Hn|exact H7|reflexivity].
  - apply (get_file_lock_one_lock_per_path sample_hash empty_table
             (Alloc 7%N true) (Alloc 11%N true) [(Alloc 9%N true, "b.txt")] "a.txt"
             eq_refl); [exact Hn|exact H7|reflexivity].
Defined.

(** *** Teardown *)

Lemma ends_bind {A B} (c : M A) (k : A → M B) m (Q : A → list obj → Prop)
    (R : B → list obj → Prop) :
  ends (c m) Q → (∀ a m', Q a m' → ends (k a m') R) → ends (bind c k m) R.
Proof. unfold bind. destruct (c m); simpl; auto. Qed.

Lemma ends_weaken {A} (r : outcome A) (Q R : A → list obj → Prop) :
  ends r Q → (∀ a m, Q a m → R a m) → ends r R.
Proof. destruct r; simpl; auto. Qed.

Lemma ends_False {A} (r : outcome A) : ends r (fun _ _ => False) → is_fault r.
Proof. by destruct r. Qed.

Lemma access_ends o m : ends (access o m) (fun _ m' => m' = m).
Proof. unfold access. by case_decide. Qed.

Lemma access_released o m : o ∈ m → is_fault (access o m).
Proof. intros H. unfold access. by rewrite decide_True. Qed.

Lemma free_ends o m : ends (free o m) (fun _ m' => m' = o :: m).
Proof. unfold free. by case_decide. Qed.

Lemma free_released o m : o ∈ m → is_fault (free o m).
Proof. intros H. unfold free. by rewrite decide_True. Qed.

Lemma delete_if_set_ends p m :
  ends (delete_if_set p m) (fun _ m' => m ⊆ m' ∧ (p ≠ NULL → OLock p ∈ m')).
Proof.
  unfold delete_if_set. destruct (p =? NULL)%N eqn:E; simpl.
  - apply N.eqb_eq in E. done.
  - unfold rwlock_delete. eapply ends_weaken; [apply free_ends|].
    intros _ m' ->. split; [apply list_subseteq_cons; done|].
    intros _. apply list_elem_of_here.
Qed.

(** The loop of [cleanup_file_locks] releases every lock of the chain. *)
Lemma delete_locks_ends i nodes : ∀ j m,
  ends (delete_locks i j nodes m)
       (fun _ m' => m ⊆ m' ∧ ∀ d, d ∈ nodes → id d ≠ NULL → OLock (id d) ∈ m').
Proof.
  induction nodes as [|d nodes IH]; intros j m; simpl.
  - split; [done|]. by intros d ?%elem_of_nil.
  - eapply ends_bind; [apply access_ends|]. intros _ ? ->.
    eapply ends_bind; [apply delete_if_set_ends|]. intros _ m1 [Hsub Hd].
    eapply ends_weaken; [apply IH|]. intros _ m2 [Hsub2 Hn]. split.
    + by etrans.
    + intros d' [->|Hin]%elem_of_cons Hnn; [|by apply Hn].
      by apply Hsub2, Hd.
Qed.

(** [list_destroy] on a chain whose locks were released faults at the
    first lock; on a chain without locks it releases the header. *)
Lemma destroy_nodes_ends i nodes : ∀ j m,
  (∀ d, d ∈ nodes → id d ≠ NULL → OLock (id d) ∈ m) →
  ends (destroy_nodes i j nodes m)
       (fun _ m' => m ⊆ m' ∧ ∀ d, d ∈ nodes → id d = NULL).
Proof.
  induction nodes as [|d nodes IH]; intros j m Hrel; simpl.
  - split; [done|]. by intros d ?%elem_of_nil.
  - eapply ends_bind; [apply access_ends|]. intros _ ? ->.
    unfold delete_if_set. destruct (id d =? NULL)%N eqn:E.
    + apply N.eqb_eq in E.
      eapply ends_bind with (Q := fun _ m' => m' = m); [done|]. intros _ ? ->.
      eapply ends_bind; [apply free_ends|]. intros _ ? ->.
      eapply ends_weaken.
      * apply IH. intros d' Hin Hn. apply list_elem_of_further. apply Hrel; [|done].
        by apply list_elem_of_further.
      * simpl. intros _ m' [Hsub Hall]. split.
        -- etrans; [|done]. by apply list_subseteq_cons.
        -- by intros d' [->|Hin]%elem_of_cons; [|apply Hall].
    + apply N.eqb_neq in E.
      assert (is_fault (rwlock_delete (id d) m)) as Hf.
      { apply free_released, Hrel; [apply list_elem_of_here|done]. }
      unfold bind at 1. by destruct (rwlock_delete (id d) m).
Qed.

Lemma list_destroy_ends i l m :
  (∀ d, d ∈ l → id d ≠ NULL → OLock (id d) ∈ m) →
  ends (list_destroy i l m) (fun _ m' => OList i ∈ m').
Proof.
  intros Hrel. unfold list_destroy.
  eapply ends_bind; [apply access_ends|]. intros _ ? ->.
  eapply ends_bind; [by apply destroy_nodes_ends|]. intros _ m1 _.
  eapply ends_weaken; [apply free_ends|]. intros _ ? ->. apply list_elem_of_here.
Qed.

Lemma grows_access o m : ends (access o m) (fun _ m' => m ⊆ m').
Proof. eapply ends_weaken; [apply access_ends|]. by intros _ ? ->. Qed.

Lemma grows_free o m : ends (free o m) (fun _ m' => m ⊆ m').
Proof.
  eapply ends_weaken; [apply free_ends|]. intros _ ? ->.
  by apply list_subseteq_cons.
Qed.

(** One round of the loop of [cleanup_file_locks] faults or leaves the
    chain header of its bucket released. *)
Lemma cleanup_bucket_ends t i m :
  ends (cleanup_bucket t i m) (fun _ m' => m ⊆ m' ∧ OList i ∈ m').
Proof.
  unfold cleanup_bucket.
  eapply ends_bind; [apply access_ends|]. intros _ ? ->.
  eapply ends_bind; [apply access_ends|]. intros _ ? ->.
  eapply ends_bind; [apply delete_locks_ends|]. intros _ m1 [Hsub Hrel].
  unfold list_destroy.
  eapply ends_bind; [apply access_ends|]. intros _ ? ->.
  eapply ends_bind; [by apply destroy_nodes_ends|]. intros _ m2 [Hsub2 _].
  eapply ends_weaken; [apply free_ends|]. intros _ ? ->. split.
  - etrans; [done|]. etrans; [done|]. by apply list_subseteq_cons.
  - apply list_elem_of_here.
Qed.

Lemma for_loop_ends (body : nat → M unit) (idxs : list nat) : ∀ m,
  (∀ i m, ends (body i m) (fun _ m' => m ⊆ m' ∧ OList i ∈ m')) →
  ends (foldr (fun i k => body i;; k) (ret tt) idxs m)
       (fun _ m' => m ⊆ m' ∧ ∀ i, i ∈ idxs → OList i ∈ m').
Proof.
  intros m Hbody. revert m. induction idxs as [|i idxs IH]; intros m; simpl.
  - split; [done|]. by intros i ?%elem_of_nil.
  - eapply ends_bind; [apply Hbody|]. intros _ m1 [Hsub Hi].
    eapply ends_weaken; [apply IH|]. intros _ m2 [Hsub2 His]. split.
    + by etrans.
    + intros i' [->|Hin]%elem_of_cons; [by apply Hsub2|by apply His].
Qed.

Lemma is_fault_bind {A B} (c : M A) (k : A → M B) m :
  is_fault (c m) → is_fault (bind c k m).
Proof. unfold bind. by destruct (c m). Qed.

Lemma is_fault_bind_Ok {A B} (c : M A) (k : A → M B) m :
  (∀ a m', c m = Ok a m' → is_fault (k a m')) → is_fault (bind c k m).
Proof. unfold bind. destruct (c m); [by auto|done]. Qed.

(** [hash_destroy] on a table whose first chain header was released
    reads released memory. *)
Lemma hash_destroy_released t m :
  OList 0 ∈ m → is_fault (hash_destroy (Some (Some t)) m).
Proof.
  intros H0. unfold hash_destroy, for_buckets.
  replace (seq 0 TABLE_SIZE) with (0 :: seq 1 (TABLE_SIZE - 1)) by reflexivity.
  cbn [foldr]. do 2 apply is_fault_bind. apply is_fault_bind_Ok.
  intros [] m' Ha. pose proof (access_ends OTable m) as He.
  rewrite Ha in He. simpl in He. subst m'.
  unfold list_destroy. by apply is_fault_bind, access_released.
Qed.

(** C8, on the code: whatever the table holds and whatever was released
    before, [cleanup_file_locks] on a created table does not run to its
    end: it stops at a release of what was released already (a lock, by
    the second [rwlock_delete]) or at a read of a released chain header
    (by the second [list_destroy]). *)
Theorem cleanup_file_locks_releases_twice (t : Hashtable) (m : list obj) :
  is_fault (cleanup_file_locks (Some t) m).
Proof.
  unfold cleanup_file_locks. apply ends_False.
  eapply ends_bind.
  - apply for_loop_ends. apply cleanup_bucket_ends.
  - intros _ m1 [_ Hall].
    assert (is_fault (hash_destroy (Some (Some t)) m1)) as Hf.
    { apply hash_destroy_released, Hall. unfold TABLE_SIZE. simpl.
      apply list_elem_of_here. }
    by destruct (hash_destroy (Some (Some t)) m1).
Qed.

(** The registry after one request for ["a.txt"], the lock at address 1:
    the second [rwlock_delete] of that lock is where teardown stops, the
    lock having been released once. *)
Example cleanup_one_lock :
  let t := (get_file_lock sample_hash (Alloc 1%N true) empty_table "a.txt").2 in
  fault_of (cleanup_file_locks (Some t) []) = Some (DoubleFree (OLock 1%N)).
Proof. by vm_compute. Qed.

(** A registry that never served a request: the chain header of bucket 0,
    released by [cleanup_file_locks], is read again by [hash_destroy]. *)
Example cleanup_no_lock :
  fault_of (cleanup_file_locks (Some empty_table) []) = Some (UseAfterFree (OList 0)).
Proof. by vm_compute. Qed.

(** C9 (as stated) fails for [hash_destroy]: it has no null guard, and with
    a null table, or a null argument, it reads through the null pointer. *)
Lemma hash_destroy_null_faults :
  hash_destroy (Some None) [] = Fault NullDeref []
  ∧ hash_destroy None [] = Fault NullDeref [].
Proof. by vm_compute. Qed.

(** C9 (as amended): the registry teardown [cleanup_file_locks] is the
    defensive no-op: when [file_lock_ht] is null it returns at once, nothing
    is read or released, and the pointer stays null. *)
Theorem cleanup_file_locks_null (m : list obj) :
  cleanup_file_locks None m = Ok None m.
Proof. reflexivity. Qed.

(** *** Further properties of [get_file_lock] *)

Section Registry.

Variable hash : string -> N.

Abbreviation index := (index hash).
Abbreviation hash_get := (hash_get hash).
Abbreviation hash_put := (hash_put hash).
Abbreviation hash_lookup := (hash_lookup hash).
Abbreviation get_file_lock := (get_file_lock hash).
Abbreviation run_calls := (run_calls hash).
Abbreviation table_inv := (table_inv hash).

(** A call leaves the table as it is, or prepends one entry that holds
    the new lock under the path. *)
Lemma get_file_lock_cases a (ht : list (list item)) path :
  length ht = TABLE_SIZE →
  (get_file_lock a ht path).2 = ht
  ∨ ((get_file_lock a ht path).1 = rwlock_new_result a
     ∧ rwlock_new_result a ≠ NULL
     ∧ hash_get ht path = None
     ∧ (get_file_lock a ht path).2
       = <[index path := Item (snprintf_key path) (rwlock_new_result a)
                         :: ht !!! index path]> ht).
Proof.
  intros Hlen. unfold Registry.get_file_lock.
  destruct (hash_get ht path) as [p|] eqn:Hp; [by left|].
  destruct (rwlock_new_result a =? NULL)%N eqn:E; [by left|].
  apply N.eqb_neq in E.
  destruct (hash_put (list_add_ok a) ht path (rwlock_new_result a))
    as [[] ht'] eqn:Hput; simpl.
  - right. destruct (list_add_ok a) eqn:Hok.
    + rewrite hash_put_new in Hput by done. by injection Hput as <-.
    + unfold HashTable.hash_put in Hput. by rewrite Hp in Hput.
  - left. by apply (hash_put_false hash) in Hput as (-> & _).
Qed.

Lemma get_file_lock_no_null a (ht : list (list item)) path :
  length ht = TABLE_SIZE →
  NULL ∉ stored_locks ht → NULL ∉ stored_locks (get_file_lock a ht path).2.
Proof.
  intros Hlen Hn.
  destruct (get_file_lock_cases a ht path Hlen) as [->|(_ & Hnn & _ & ->)];
    [done|].
  unfold stored_locks. rewrite entries_insert_cons
    by (rewrite Hlen; apply index_lt).
  simpl. apply not_elem_of_cons. split; [congruence|done].
Qed.

Lemma run_calls_no_null (ht : list (list item)) calls :
  length ht = TABLE_SIZE →
  NULL ∉ stored_locks ht → NULL ∉ stored_locks (run_calls ht calls).
Proof.
  revert ht. induction calls as [|c calls IH]; intros ht Hlen Hn; [done|].
  simpl. apply IH.
  - by rewrite get_file_lock_length.
  - by apply get_file_lock_no_null.
Qed.

Lemma load_stored (ht : list (list item)) path p :
  hash_get ht path = Some p → load ht p ∈ stored_locks ht.
Proof.
  intros (j & -> & Hj)%hash_get_Some_inv. unfold load, stored_locks. simpl.
  pose proof (list_find_lt _ _ _ Hj) as Hlt.
  apply list_elem_of_fmap. exists ((ht !!! index path) !!! j). split; [done|].
  unfold entries. apply list_elem_of_join. exists (ht !!! index path). split.
  - apply list_elem_of_lookup. exists j. by apply list_lookup_lookup_total_lt.
  - destruct (decide (index path < length ht)) as [Hi|Hi].
    + apply list_elem_of_lookup. exists (index path).
      by apply list_lookup_lookup_total_lt.
    + rewrite list_lookup_total_alt in Hlt.
      rewrite lookup_ge_None_2 in Hlt by lia. simpl in Hlt. lia.
Qed.

(** X7: the registry never stores a null lock: after any sequence of
    [get_file_lock] calls on the created table, whatever the allocator
    answered, no entry holds the null pointer. *)
Theorem registry_stores_no_null (calls : list lock_call) :
  NULL ∉ stored_locks (run_calls empty_table calls).
Proof.
  apply run_calls_no_null; [apply empty_table_length|].
  unfold stored_locks, entries, empty_table. generalize TABLE_SIZE.
  intros n. induction n as [|n IH]; simpl; [apply not_elem_of_nil|done].
Qed.

(** X8: on a registry made by [get_file_lock] calls, a call returns null
    exactly when the path has no entry and [rwlock_new] or the allocation
    of the node fails; the table is then as it was before the call. *)
Theorem get_file_lock_failure (calls : list lock_call) (a : alloc)
    (path : string) :
  let ht := run_calls empty_table calls in
  ((get_file_lock a ht path).1 = NULL ↔
     hash_get ht path = None
     ∧ (rwlock_new_result a = NULL ∨ list_add_ok a = false))
  ∧ ((get_file_lock a ht path).1 = NULL → (get_file_lock a ht path).2 = ht).
Proof.
  intros ht.
  assert (length ht = TABLE_SIZE) as Hlen.
  { subst ht. rewrite run_calls_length. apply empty_table_length. }
  pose proof (run_calls_no_null empty_table calls empty_table_length) as Hnn.
  assert (NULL ∉ stored_locks ht) as Hn.
  { apply Hnn. unfold stored_locks, entries, empty_table. generalize TABLE_SIZE.
    intros n. induction n as [|n IH]; simpl; [apply not_elem_of_nil|done]. }
  clearbody ht. clear Hnn. unfold Registry.get_file_lock.
  destruct (hash_get ht path) as [p|] eqn:Hp; simpl.
  - split.
    + split; [|by intros [? _]]. intros Hl. exfalso. apply Hn. rewrite <- Hl.
      by apply (load_stored _ path).
    + done.
  - destruct (rwlock_new_result a =? NULL)%N eqn:E.
    + apply N.eqb_eq in E. split; [|done]. split; [by auto|done].
    + apply N.eqb_neq in E.
      destruct (hash_put (list_add_ok a) ht path (rwlock_new_result a))
        as [[] ht'] eqn:Hput; simpl.
      * split; [|done]. split; [done|]. intros [_ [?|Hok]]; [done|].
        rewrite Hok in Hput. unfold HashTable.hash_put in Hput.
        by rewrite Hp in Hput.
      * apply (hash_put_false hash) in Hput as (-> & _ & Hok); [|done].
        split; [|done]. split; [by auto|done].
Qed.

(** X9: a lock, once stored under a path, stays: no later sequence of
    [get_file_lock] calls, for any paths and allocator answers, changes
    the lock a lookup of that path reads, and the table keeps its
    [TABLE_SIZE] buckets. *)
Theorem registry_keeps_locks (ht : list (list item)) (calls : list lock_call)
    (path : string) (l : rwlock_ptr) :
  length ht = TABLE_SIZE →
  hash_lookup ht path = Some l →
  hash_lookup (run_calls ht calls) path = Some l
  ∧ length (run_calls ht calls) = TABLE_SIZE.
Proof.
  intros Hlen Hl. split; [by apply run_calls_preserves|].
  by rewrite run_calls_length.
Qed.

Lemma get_file_lock_NoDup a (ht : list (list item)) path :
  length ht = TABLE_SIZE →
  rwlock_new_result a ∉ stored_locks ht →
  NoDup (stored_locks ht) → NoDup (stored_locks (get_file_lock a ht path).2).
Proof.
  intros Hlen Hfresh Hnd.
  destruct (get_file_lock_cases a ht path Hlen) as [->|(_ & _ & _ & ->)];
    [done|].
  unfold stored_locks. rewrite entries_insert_cons
    by (rewrite Hlen; apply index_lt).
  simpl. by apply NoDup_cons.
Qed.

Lemma run_calls_NoDup (ht : list (list item)) calls :
  length ht = TABLE_SIZE → fresh_calls hash ht calls →
  NoDup (stored_locks ht) → NoDup (stored_locks (run_calls ht calls)).
Proof.
  revert ht. induction calls as [|c calls IH]; intros ht Hlen Hf Hnd; [done|].
  destruct Hf as [Hc Hf]. simpl. apply IH; [|done|].
  - by rewrite get_file_lock_length.
  - by apply get_file_lock_NoDup.
Qed.

Lemma hash_lookup_entry (ht : list (list item)) path l :
  hash_lookup ht path = Some l →
  ∃ d, d ∈ entries ht ∧ d ∈ ht !!! index path
       ∧ key d = snprintf_key path ∧ id d = l.
Proof.
  unfold HashTable.hash_lookup.
  destruct (hash_get ht path) as [p|] eqn:Hp; [|done]. intros [= <-].
  apply hash_get_Some_inv in Hp as (j & -> & Hj).
  pose proof (list_find_lt _ _ _ Hj) as Hlt.
  apply list_find_Some in Hj as [(d & Hd & Hk) _].
  exists d. unfold load. simpl.
  rewrite (list_lookup_total_correct _ _ _ Hd). split_and!; try done.
  - unfold entries. apply list_elem_of_join. exists (ht !!! index path). split.
    + by eapply list_elem_of_lookup_2.
    + destruct (decide (index path < length ht)) as [Hi|Hi].
      * apply list_elem_of_lookup. exists (index path).
        by apply list_lookup_lookup_total_lt.
      * rewrite list_lookup_total_alt in Hlt.
        rewrite lookup_ge_None_2 in Hlt by lia. simpl in Hlt. lia.
  - by eapply list_elem_of_lookup_2.
Qed.

Lemma NoDup_fmap_inj_on {A B} (f : A → B) (l : list A) x y :
  NoDup (f <$> l) → x ∈ l → y ∈ l → f x = f y → x = y.
Proof.
  induction l as [|a l IH]; simpl; [by intros _ ?%elem_of_nil|].
  intros [Ha Hnd]%NoDup_cons [->|Hx]%elem_of_cons [->|Hy]%elem_of_cons Hf;
    try done.
  - exfalso. apply Ha. rewrite Hf. by apply list_elem_of_fmap_2.
  - exfalso. apply Ha. rewrite <- Hf. by apply list_elem_of_fmap_2.
  - by apply IH.
Qed.

(** X10: when [rwlock_new] never hands out an address that the registry
    stores, no two entries of the registry share a lock: two paths that
    get the same lock have the same first 254 bytes, so two different
    paths of at most 254 bytes never get the same lock. *)
Theorem registry_locks_distinct (calls : list lock_call) :
  fresh_calls hash empty_table calls →
  let ht := run_calls empty_table calls in
  NoDup (stored_locks ht)
  ∧ (∀ p1 p2 l,
       hash_lookup ht p1 = Some l → hash_lookup ht p2 = Some l →
       snprintf_key p1 = snprintf_key p2 ∧ (fits p1 → fits p2 → p1 = p2)).
Proof.
  intros Hf ht.
  assert (NoDup (stored_locks ht)) as Hnd.
  { apply run_calls_NoDup; [apply empty_table_length|done|].
    unfold stored_locks, entries, empty_table. generalize TABLE_SIZE.
    intros n. induction n as [|n IH]; simpl; [apply NoDup_nil_2|done]. }
  split; [done|]. intros p1 p2 l L1 L2.
  apply hash_lookup_entry in L1 as (d1 & Hin1 & _ & Hk1 & Hl1).
  apply hash_lookup_entry in L2 as (d2 & Hin2 & _ & Hk2 & Hl2).
  assert (d1 = d2) as Hd.
  { apply (NoDup_fmap_inj_on id (entries ht)); try done. congruence. }
  assert (snprintf_key p1 = snprintf_key p2) as Hs by congruence.
  split; [done|]. intros H1 H2. by rewrite !snprintf_key_short in Hs.
Qed.

End Registry.

Lemma registry_keeps_locks_witness :
  hash_lookup sample_hash
    (run_calls sample_hash
       (get_file_lock sample_hash (Alloc 7%N true) empty_table "a.txt").2
       [(Alloc 9%N true, "b.txt")]) "a.txt" = Some 7%N.
Proof.
  by apply (registry_keeps_locks sample_hash
              (get_file_lock sample_hash (Alloc 7%N true) empty_table "a.txt").2
              [(Alloc 9%N true, "b.txt")] "a.txt" 7%N eq_refl eq_refl).
Defined.

Lemma registry_locks_distinct_witness :
  NoDup (stored_locks
           (run_calls sample_hash empty_table
              [(Alloc 7%N true, "a.txt"); (Alloc 9%N true, "b.txt")])).
Proof.
  apply (registry_locks_distinct sample_hash
           [(Alloc 7%N true, "a.txt"); (Alloc 9%N true, "b.txt")]).
  vm_compute. split_and!; try done.
  - apply not_elem_of_nil.
  - apply not_elem_of_cons. split; [done|apply not_elem_of_nil].
Defined.

(** *** [hash_destroy] and [list_destroy] on a table that was not touched *)

Lemma access_ok o (m : list obj) : o ∉ m → access o m = Ok tt m.
Proof. intros H. unfold access. by rewrite decide_False. Qed.

Lemma free_ok o (m : list obj) : o ∉ m → free o m = Ok tt (o :: m).
Proof. intros H. unfold free. by rewrite decide_False. Qed.

Lemma bind_ok {A B} (c : M A) (k : A → M B) m a m' :
  c m = Ok a m' → bind c k m = k a m'.
Proof. intros H. unfold bind. by rewrite H. Qed.

(** The locks of a chain. *)
Abbreviation chain_locks l := (filter (fun p => p ≠ NULL) (id <$> l)).

Lemma elem_of_node_objs i nodes : ∀ j o,
  o ∈ node_objs i j nodes →
  (∃ j', j ≤ j' ∧ o = ONode i j') ∨ (∃ p, p ∈ chain_locks nodes ∧ o = OLock p).
Proof.
  induction nodes as [|d nodes IH]; intros j o; simpl; [by intros ?%elem_of_nil|].
  rewrite elem_of_app, elem_of_cons. intros [Hl|[->|Hin]].
  - right. destruct (id d =? NULL)%N eqn:E; [by apply elem_of_nil in Hl|].
    apply N.eqb_neq in E. apply list_elem_of_singleton in Hl as ->.
    exists (id d). split; [|done]. rewrite filter_cons_True by done.
    apply list_elem_of_here.
  - left. exists j. split; [lia|done].
  - destruct (IH _ _ Hin) as [(j' & ? & ->)|(p & Hp & ->)].
    + left. exists j'. split; [lia|done].
    + right. exists p. split; [|done]. rewrite filter_cons.
      case_decide; [by apply list_elem_of_further|done].
Qed.

Lemma destroy_nodes_ok i nodes : ∀ j (m : list obj),
  NoDup m →
  (∀ j', j ≤ j' → ONode i j' ∉ m) →
  NoDup (chain_locks nodes) →
  (∀ p, p ∈ chain_locks nodes → OLock p ∉ m) →
  destroy_nodes i j nodes m = Ok tt (reverse (node_objs i j nodes) ++ m)
  ∧ NoDup (reverse (node_objs i j nodes) ++ m).
Proof.
  induction nodes as [|d nodes IH]; intros j m Hm Hnode Hnd Hlock; simpl.
  - by split.
  - rewrite fmap_cons in Hnd, Hlock.
    rewrite (bind_ok _ _ _ _ _ (access_ok _ _ (Hnode j (le_n j)))).
    unfold delete_if_set. destruct (id d =? NULL)%N eqn:E.
    + apply N.eqb_eq in E. rewrite filter_cons_False in Hnd, Hlock
        by (intros H; by apply H).
      rewrite (bind_ok _ _ _ tt m) by done.
      rewrite (bind_ok _ _ _ _ _ (free_ok _ _ (Hnode j (le_n j)))).
      destruct (IH (S j) (ONode i j :: m)) as [-> Hres]; try done.
      * apply NoDup_cons. split; [apply Hnode; lia|done].
      * intros j' Hj'. apply not_elem_of_cons. split; [intros [=]; lia|].
        apply Hnode. lia.
      * intros p Hp. apply not_elem_of_cons. split; [done|by apply Hlock].
      * simpl. rewrite reverse_cons, <- !app_assoc. simpl. by split.
    + apply N.eqb_neq in E. rewrite filter_cons_True in Hnd, Hlock by done.
      apply NoDup_cons in Hnd as [Hd Hnd].
      assert (OLock (id d) ∉ m) as Hdm by (apply Hlock, list_elem_of_here).
      unfold rwlock_delete. rewrite (bind_ok _ _ _ _ _ (free_ok _ _ Hdm)).
      assert (ONode i j ∉ OLock (id d) :: m) as Hn1.
      { apply not_elem_of_cons. split; [done|]. apply Hnode. lia. }
      rewrite (bind_ok _ _ _ _ _ (free_ok _ _ Hn1)).
      destruct (IH (S j) (ONode i j :: OLock (id d) :: m)) as [-> Hres];
        try done.
      * apply NoDup_cons. split; [done|]. by apply NoDup_cons.
      * intros j' Hj'. rewrite !not_elem_of_cons. split_and!; try done.
        -- intros [=]; lia.
        -- apply Hnode. lia.
      * intros p Hp. rewrite !not_elem_of_cons. split_and!; try done.
        -- intros [= ->]. done.
        -- apply Hlock. by apply list_elem_of_further.
      * simpl. rewrite reverse_cons, reverse_cons, <- !app_assoc. simpl.
        by split.
Qed.

Lemma list_destroy_ok i l (m : list obj) :
  NoDup m → OList i ∉ m →
  (∀ j, ONode i j ∉ m) →
  NoDup (chain_locks l) →
  (∀ p, p ∈ chain_locks l → OLock p ∉ m) →
  list_destroy i l m = Ok tt (reverse (node_objs i 0 l ++ [OList i]) ++ m)
  ∧ NoDup (reverse (node_objs i 0 l ++ [OList i]) ++ m).
Proof.
  intros Hm Hl Hnode Hnd Hlock. unfold list_destroy.
  rewrite (bind_ok _ _ _ _ _ (access_ok _ _ Hl)).
  destruct (destroy_nodes_ok i l 0 m) as [E Hres]; try done.
  rewrite (bind_ok _ _ _ _ _ E).
  assert (OList i ∉ reverse (node_objs i 0 l) ++ m) as Hfree.
  { rewrite elem_of_app, elem_of_reverse. intros [Hn|?]; [|done].
    by apply elem_of_node_objs in Hn as [(j' & _ & [=])|(p & _ & [=])]. }
  rewrite (free_ok _ _ Hfree). rewrite reverse_app. simpl.
  split; [done|]. by apply NoDup_cons.
Qed.

Lemma elem_of_bucket_objs t i o :
  o ∈ bucket_objs t i →
  o = OList i ∨ (∃ j, o = ONode i j)
  ∨ (∃ p, p ∈ chain_locks (t !!! i) ∧ o = OLock p).
Proof.
  unfold bucket_objs. rewrite elem_of_app. intros [Hn|Hs].
  - apply elem_of_node_objs in Hn as [(j' & _ & ->)|(p & Hp & ->)]; eauto.
  - apply list_elem_of_singleton in Hs as ->. eauto.
Qed.

(** The loop of [hash_destroy] over the buckets [idxs]. *)
Lemma destroy_buckets_ok (t : list (list item)) (idxs : list nat) :
  ∀ m : list obj,
  NoDup m → OTable ∉ m → NoDup idxs →
  (∀ i, i ∈ idxs → (OList i ∉ m) ∧ ∀ j, ONode i j ∉ m) →
  NoDup (buckets_locks t idxs) →
  (∀ p, p ∈ buckets_locks t idxs → OLock p ∉ m) →
  foldr (fun i k => (access OTable;; list_destroy i (t !!! i));; k) (ret tt)
        idxs m
  = Ok tt (reverse (buckets_objs t idxs) ++ m)
  ∧ NoDup (reverse (buckets_objs t idxs) ++ m)
  ∧ OTable ∉ reverse (buckets_objs t idxs) ++ m.
Proof.
  induction idxs as [|i idxs IH]; intros m Hm Ht Hidx Hstruct Hnd Hlock.
  - simpl. by split_and!.
  - apply NoDup_cons in Hidx as [Hi Hidx].
    unfold buckets_locks in Hnd, Hlock. simpl in Hnd, Hlock.
    apply NoDup_app in Hnd as (Hnd1 & Hdis & Hnd2).
    destruct (Hstruct i (list_elem_of_here _ _)) as [HL HN].
    destruct (list_destroy_ok i (t !!! i) m) as [E Hres]; try done.
    { intros p Hp. apply Hlock. apply elem_of_app. by left. }
    fold (bucket_objs t i) in E, Hres.
    assert (∀ o, o ∈ reverse (bucket_objs t i) ++ m →
                 o ∈ bucket_objs t i ∨ o ∈ m) as Hsplit.
    { intros o. rewrite elem_of_app, elem_of_reverse. tauto. }
    destruct (IH (reverse (bucket_objs t i) ++ m)) as (E2 & Hres2 & Ht2);
      try done.
    + intros [Hb|?]%Hsplit; [|done].
      by destruct (elem_of_bucket_objs _ _ _ Hb) as [?|[[? ?]|(? & _ & ?)]].
    + intros i' Hi'. destruct (Hstruct i' (list_elem_of_further _ _ _ Hi'))
        as [HL' HN'].
      assert (i' ≠ i) as Hne by (intros ->; done). split.
      * intros [Hb|?]%Hsplit; [|done].
        destruct (elem_of_bucket_objs _ _ _ Hb) as [[=]|[[? [=]]|(? & _ & [=])]].
        done.
      * intros j [Hb|?]%Hsplit; [|by apply (HN' j)].
        destruct (elem_of_bucket_objs _ _ _ Hb) as [[=]|[[? [=]]|(? & _ & [=])]].
        done.
    + intros p Hp [Hb|Hin]%Hsplit.
      * destruct (elem_of_bucket_objs _ _ _ Hb) as [[=]|[[? [=]]|(p' & Hp' & [= <-])]].
        by apply (Hdis p).
      * revert Hin. apply Hlock. apply elem_of_app. by right.
    + cbn [foldr]. unfold bind at 1. unfold bind at 1.
      rewrite (access_ok _ _ Ht), E. fold (@bind unit unit).
      unfold buckets_objs in *. simpl.
      rewrite reverse_app, <- app_assoc. by split_and!.
Qed.

Lemma bind_seq_lookup_total {A B} `{!Inhabited A} (t : list A) (f : A → list B) :
  seq 0 (length t) ≫= (fun i => f (t !!! i)) = t ≫= f.
Proof.
  induction t as [|x t IH]; [done|].
  change (seq 0 (length (x :: t))) with (0 :: seq 1 (length t)).
  rewrite !bind_cons. f_equal. rewrite <- IH, <- fmap_S_seq.
  generalize (seq 0 (length t)). intros l.
  induction l as [|i l IHl]; [done|].
  rewrite fmap_cons, !bind_cons. by rewrite IHl.
Qed.

Lemma buckets_locks_stored (t : list (list item)) :
  length t = TABLE_SIZE →
  buckets_locks t (seq 0 TABLE_SIZE)
  = filter (fun p => p ≠ NULL) (stored_locks t).
Proof.
  intros <-. unfold buckets_locks.
  rewrite (bind_seq_lookup_total t (fun l => chain_locks l)).
  unfold stored_locks, entries. induction t as [|l t IH]; [done|].
  rewrite bind_cons. simpl. by rewrite fmap_app, filter_app, IH.
Qed.

Lemma hash_destroy_runs (t : list (list item)) :
  NoDup (buckets_locks t (seq 0 TABLE_SIZE)) →
  hash_destroy (Some (Some t)) [] = Ok None (reverse (table_objs t))
  ∧ NoDup (table_objs t).
Proof.
  intros Hnd. unfold hash_destroy, for_buckets.
  destruct (destroy_buckets_ok t (seq 0 TABLE_SIZE) []) as (E & Hres & Ht);
    try done.
  - apply NoDup_nil_2.
  - apply not_elem_of_nil.
  - apply NoDup_seq.
  - intros i _. split; [|intros j]; apply not_elem_of_nil.
  - intros p _. apply not_elem_of_nil.
  - rewrite app_nil_r in *. rewrite (bind_ok _ _ _ _ _ E).
    rewrite (bind_ok _ _ _ _ _ (free_ok _ _ Ht)). unfold ret, table_objs.
    rewrite reverse_app. simpl. split; [done|].
    rewrite reverse_Permutation in Hres.
    apply NoDup_app. split_and!; [done| |apply NoDup_singleton].
    intros o Ho ->%list_elem_of_singleton. apply Ht. by apply elem_of_reverse.
Qed.

(** X11: on a table of [TABLE_SIZE] buckets whose locks are pairwise
    different and of which nothing was released, [hash_destroy] runs to its
    end without a fault: it releases every lock that is not null, every
    node, every chain header and the table, each exactly once, in the
    order of [table_objs], and leaves the table pointer null. *)
Theorem hash_destroy_releases_once (t : list (list item)) :
  length t = TABLE_SIZE →
  NoDup (filter (fun p => p ≠ NULL) (stored_locks t)) →
  hash_destroy (Some (Some t)) [] = Ok None (reverse (table_objs t))
  ∧ NoDup (table_objs t)
  ∧ (∀ p, p ∈ stored_locks t → p ≠ NULL → OLock p ∈ table_objs t).
Proof.
  intros Hlen Hnd. rewrite <- buckets_locks_stored in Hnd by done.
  destruct (hash_destroy_runs t Hnd) as [E Hres]. split_and!; [done..|].
  intros p Hp Hn.
  assert (p ∈ buckets_locks t (seq 0 TABLE_SIZE)) as Hb.
  { rewrite buckets_locks_stored by done. by apply list_elem_of_filter. }
  clear -Hb. unfold table_objs, buckets_objs. apply elem_of_app. left.
  unfold buckets_locks in Hb. apply list_elem_of_bind in Hb as (i & Hp & Hi).
  apply list_elem_of_bind. exists i. split; [|done].
  unfold bucket_objs. apply elem_of_app. left. revert Hp.
  generalize 0. induction (t !!! i) as [|d l IH]; intros j; simpl.
  - by intros ?%elem_of_nil.
  - rewrite filter_cons. destruct (id d =? NULL)%N eqn:E.
    + apply N.eqb_eq in E. rewrite decide_False by (intros H; by apply H).
      intros Hp. simpl. apply list_elem_of_further. by apply IH.
    + apply N.eqb_neq in E. rewrite decide_True by done.
      intros [->|Hp]%elem_of_cons; [apply list_elem_of_here|].
      simpl. do 2 apply list_elem_of_further. by apply IH.
Qed.

Lemma hash_destroy_releases_once_witness :
  fault_of (hash_destroy
              (Some (Some (run_calls sample_hash empty_table
                             [(Alloc 7%N true, "a.txt"); (Alloc 9%N true, "b.txt")])))
              []) = None.
Proof.
  destruct (hash_destroy_releases_once
              (run_calls sample_hash empty_table
                 [(Alloc 7%N true, "a.txt"); (Alloc 9%N true, "b.txt")]))
    as [E _].
  - reflexivity.
  - apply (bool_decide_unpack _). by vm_compute.
  - by rewrite E.
Defined.

(** X12: the registry made by any sequence of [get_file_lock] calls, when
    [rwlock_new] never hands out an address the registry stores, is torn
    down by [hash_destroy] alone without a fault, every object being
    released once. *)
Theorem hash_destroy_registry (hash : string → N) (calls : list lock_call) :
  fresh_calls hash empty_table calls →
  let t := run_calls hash empty_table calls in
  hash_destroy (Some (Some t)) [] = Ok None (reverse (table_objs t))
  ∧ NoDup (table_objs t).
Proof.
  intros Hf t. apply hash_destroy_runs.
  rewrite buckets_locks_stored
    by (subst t; rewrite run_calls_length; apply empty_table_length).
  apply NoDup_filter. apply run_calls_NoDup; [apply empty_table_length|done|].
  unfold stored_locks, entries, empty_table. generalize TABLE_SIZE.
  intros n. induction n as [|n IH]; simpl; [apply NoDup_nil_2|done].
Qed.

Lemma hash_destroy_registry_witness :
  NoDup (table_objs (run_calls sample_hash empty_table
                       [(Alloc 7%N true, "a.txt")])).
Proof.
  apply (hash_destroy_registry sample_hash [(Alloc 7%N true, "a.txt")]).
  simpl. split; [apply not_elem_of_nil|done].
Defined.

End RegistryFacts.

(** * Properties of the request handlers *)
Module HandlersFacts.
Import HashTable Registry Handlers HashTableFacts.

Local Open Scope Z_scope.

(** Membership of an event in an explicit trace. *)
Ltac in_trace :=
  simpl; repeat first [apply list_elem_of_here | apply list_elem_of_further].

Ltac not_in_trace :=
  simpl; rewrite ?not_elem_of_cons; split_and?; try discriminate;
  apply not_elem_of_nil.

(** [get_file_lock] returns null when [rwlock_new] fails for a path that
    has no lock yet, and when the node of the new entry cannot be
    allocated. *)
Lemma get_file_lock_null hash a (ht : Hashtable) path :
  hash_get hash ht path = None →
  rwlock_new_result a = NULL ∨ list_add_ok a = false →
  (get_file_lock hash a ht path).1 = NULL.
Proof.
  intros Hp Ha. unfold get_file_lock. rewrite Hp.
  destruct (rwlock_new_result a =? NULL)%N eqn:E; [done|].
  destruct Ha as [Ha|Ha]; [by apply N.eqb_neq in E|].
  unfold hash_put. rewrite Hp, Ha. done.
Qed.

Section WithHash.

Variable hash : string -> N.

Abbreviation handle_get := (handle_get hash).
Abbreviation handle_put := (handle_put hash).
Abbreviation get_file_lock := (get_file_lock hash).

(** C5: when [open] fails, [handle_get] sends the one response that
    [errno] selects ([EACCES]: 403, [ENOENT]: 404, anything else: 500),
    writes one audit record with that status, makes no call on the
    registry or on a lock, and leaves the registry table as it is. *)
Theorem handle_get_open_failure (w : get_world) (conn : conn_t) (ht : Hashtable) :
  g_open_ret w < 0 →
  let tr := (handle_get w conn ht).1 in
  (g_errno w = EACCES →
     responses tr = [RESPONSE_FORBIDDEN] ∧ audit_codes tr = [403])
  ∧ (g_errno w = ENOENT →
     responses tr = [RESPONSE_NOT_FOUND] ∧ audit_codes tr = [404])
  ∧ (g_errno w ≠ EACCES → g_errno w ≠ ENOENT →
     responses tr = [RESPONSE_INTERNAL_SERVER_ERROR] ∧ audit_codes tr = [500])
  ∧ Forall (fun e => is_lock_event e = false) tr
  ∧ length tr = 3%nat
  ∧ (handle_get w conn ht).2 = ht.
Proof.
  intros Hfd tr. subst tr. unfold Handlers.handle_get.
  apply Z.ltb_lt in Hfd. rewrite Hfd.
  destruct (g_errno w =? EACCES) eqn:E1; [|destruct (g_errno w =? ENOENT) eqn:E2];
    simpl; rewrite ?Z.eqb_eq, ?Z.eqb_neq in *;
    (split_and!; [intros; try done; try (unfold EACCES, ENOENT in *; lia)..
                 | by repeat constructor | done | done ]).
Qed.

(** C6 (as amended): when [handle_put] has taken the write lock and the
    open of the target, the reopening of the temporary file, [fstat] or
    the copy fails, it sends one response, 500, or 403 when the open of
    the target failed with [EACCES] or [EISDIR]; it writes one audit record
    with that status, removes the temporary file, and its last call
    releases the write lock it took. *)
Theorem handle_put_failure_after_lock (w : put_world) (conn : conn_t)
    (ht : Hashtable) :
  0 ≤ p_mkstemp_ret w → p_recv_file_ret w = None →
  put_fails_after_lock w →
  let tr := (handle_put w conn ht).1 in
  let lock := (get_file_lock (p_alloc w) ht (conn_get_uri conn)).1 in
  responses tr = [if put_forbidden w then RESPONSE_FORBIDDEN
                  else RESPONSE_INTERNAL_SERVER_ERROR]
  ∧ audit_codes tr = [if put_forbidden w then 403 else 500]
  ∧ Ewriter_lock lock ∈ tr
  ∧ Eunlink (p_temp_file w) ∈ after_writer_lock tr
  ∧ last tr = Some (Ewriter_unlock lock).
Proof.
  intros Hmk Hrecv Hfail tr lock. subst tr lock.
  unfold Handlers.handle_put, put_forbidden.
  apply Z.ltb_ge in Hmk. rewrite Hmk, Hrecv.
  destruct (get_file_lock (p_alloc w) ht (conn_get_uri conn)) as [lock ht'].
  destruct (p_open_target_ret w <? 0) eqn:E1.
  { destruct ((p_errno w =? EACCES) || (p_errno w =? EISDIR)); simpl;
      split_and!; try done; in_trace. }
  destruct (p_open_tmp_ret w <? 0) eqn:E2.
  { simpl; split_and!; try done; in_trace. }
  destruct (p_fstat_ret w <? 0) eqn:E3.
  { simpl; split_and!; try done; in_trace. }
  destruct (p_pass_n_bytes_ret w =? -1) eqn:E4.
  { simpl; split_and!; try done; in_trace. }
  exfalso. rewrite ?Z.ltb_ge, ?Z.eqb_neq in *.
  destruct Hfail as [?|[?|[?|?]]]; lia.
Qed.

(** When [open] succeeded and the file is sent, [handle_get] closes the
    descriptor and then releases the read lock. *)
Lemma handle_get_stream_closes (w : get_world) (conn : conn_t) (ht : Hashtable) :
  0 ≤ g_open_ret w → 0 ≤ g_fstat_ret w → g_S_ISDIR w = false →
  let tr := (handle_get w conn ht).1 in
  let lock := (get_file_lock (g_alloc w) ht (conn_get_uri conn)).1 in
  Eclose (g_open_ret w) ∈ tr ∧ last tr = Some (Ereader_unlock lock).
Proof.
  intros Hfd Hst Hdir tr lock. subst tr lock. unfold Handlers.handle_get.
  apply Z.ltb_ge in Hfd, Hst. rewrite Hfd, Hst, Hdir.
  destruct (get_file_lock (g_alloc w) ht (conn_get_uri conn)) as [lock ht'].
  destruct (g_send_file_ret w); split; try done; in_trace.
Qed.

(** When [open] succeeded and [fstat] fails or reports a directory,
    [handle_get] releases the read lock and returns: no call closes the
    descriptor. *)
Lemma handle_get_early_return (w : get_world) (conn : conn_t) (ht : Hashtable) :
  0 ≤ g_open_ret w → g_fstat_ret w < 0 ∨ g_S_ISDIR w = true →
  let tr := (handle_get w conn ht).1 in
  let lock := (get_file_lock (g_alloc w) ht (conn_get_uri conn)).1 in
  last tr = Some (Ereader_unlock lock) ∧ Eclose (g_open_ret w) ∉ tr.
Proof.
  intros Hfd Hearly tr lock. subst tr lock. unfold Handlers.handle_get.
  apply Z.ltb_ge in Hfd. rewrite Hfd.
  destruct (get_file_lock (g_alloc w) ht (conn_get_uri conn)) as [lock ht'].
  destruct (g_fstat_ret w <? 0) eqn:E1.
  { split; [done|]. not_in_trace. }
  destruct (g_S_ISDIR w) eqn:E2.
  { split; [done|]. not_in_trace. }
  apply Z.ltb_ge in E1. destruct Hearly; [lia|done].
Qed.

(** Whenever the registry returns null after a successful [open],
    [handle_get] goes on to [reader_lock] with the null pointer; and
    [handle_put], after the body was received, to [writer_lock]. *)
Lemma handlers_lock_null (gw : get_world) (pw : put_world) (conn : conn_t)
    (ht : Hashtable) :
  (0 ≤ g_open_ret gw →
   (get_file_lock (g_alloc gw) ht (conn_get_uri conn)).1 = NULL →
   Ereader_lock NULL ∈ (handle_get gw conn ht).1)
  ∧ (0 ≤ p_mkstemp_ret pw → p_recv_file_ret pw = None →
     (get_file_lock (p_alloc pw) ht (conn_get_uri conn)).1 = NULL →
     Ewriter_lock NULL ∈ (handle_put pw conn ht).1).
Proof.
  split.
  - intros Hfd. unfold Handlers.handle_get. apply Z.ltb_ge in Hfd. rewrite Hfd.
    destruct (get_file_lock (g_alloc gw) ht (conn_get_uri conn)) as [lock ht'].
    simpl. intros ->.
    destruct (g_fstat_ret gw <? 0), (g_S_ISDIR gw), (g_send_file_ret gw);
      in_trace.
  - intros Hmk Hrecv. unfold Handlers.handle_put.
    apply Z.ltb_ge in Hmk. rewrite Hmk, Hrecv.
    destruct (get_file_lock (p_alloc pw) ht (conn_get_uri conn)) as [lock ht'].
    simpl. intros ->.
    destruct (p_open_target_ret pw <? 0),
      ((p_errno pw =? EACCES) || (p_errno pw =? EISDIR)),
      (p_open_tmp_ret pw <? 0), (p_fstat_ret pw <? 0),
      (p_pass_n_bytes_ret pw =? -1), (p_access_ret pw <? 0);
      in_trace.
Qed.

End WithHash.

(** *** The handlers on explicit requests *)

Lemma handle_get_open_failure_witness :
  g_open_ret world_missing < 0 ∧
  responses (handle_get sample_hash world_missing
               (Conn "missing.txt" None REQUEST_GET) empty_table).1
  = [RESPONSE_NOT_FOUND].
Proof.
  assert (g_open_ret world_missing < 0) as H by (simpl; lia).
  split; [done|].
  by apply (handle_get_open_failure sample_hash world_missing
              (Conn "missing.txt" None REQUEST_GET) empty_table H).
Defined.

(** C6 (as stated) fails: the open of the target fails with [EACCES] after
    the write lock was taken, and the response is 403, not 500. *)
Lemma handle_put_denied_is_403 :
  (handle_put sample_hash world_put_denied
     (Conn "a.txt" (Some "7") REQUEST_PUT) empty_table).1
  = [Emkstemp 4; Econn_recv_file 4; Eclose 4; Eget_file_lock "a.txt" 1%N;
     Ewriter_lock 1%N; Eaccess "a.txt" 0;
     Eopen "a.txt" O_WRONLY_CREAT_TRUNC (-1);
     Econn_send_response RESPONSE_FORBIDDEN; Eaudit_log "PUT" "a.txt" 403 "7";
     Eunlink "tmpAb3dE9"; Ewriter_unlock 1%N].
Proof. by vm_compute. Qed.

Lemma handle_put_failure_after_lock_witness :
  0 ≤ p_mkstemp_ret world_put_copy_fails ∧
  p_recv_file_ret world_put_copy_fails = None ∧
  put_fails_after_lock world_put_copy_fails ∧
  responses (handle_put sample_hash world_put_copy_fails
               (Conn "a.txt" None REQUEST_PUT) empty_table).1
  = [RESPONSE_INTERNAL_SERVER_ERROR].
Proof.
  assert (0 ≤ p_mkstemp_ret world_put_copy_fails) as H1 by (simpl; lia).
  assert (put_fails_after_lock world_put_copy_fails) as H2.
  { unfold put_fails_after_lock. simpl. lia. }
  split_and!; [done..|].
  by apply (handle_put_failure_after_lock sample_hash world_put_copy_fails
              (Conn "a.txt" None REQUEST_PUT) empty_table H1 eq_refl H2).
Defined.

(** C2, on the code: a GET of a file that [open] opens while [rwlock_new]
    fails. [get_file_lock] returns null; [handle_get] passes the null
    pointer to [reader_lock], sends the file and logs 200; no 500 is sent.
    The same for a PUT whose registry entry cannot be allocated: the null
    pointer goes to [writer_lock] and the response is 201. What
    [reader_lock] and [writer_lock] do with a null pointer is the lock's
    own code; the trace lists the calls of the handler as its text makes
    them. *)
Theorem handlers_use_null_lock :
  (handle_get sample_hash (GetWorld 5 0 (Alloc NULL true) 0 5 false None)
     (Conn "a.txt" None REQUEST_GET) empty_table).1
  = [Eopen "a.txt" O_RDONLY 5; Eget_file_lock "a.txt" NULL; Ereader_lock NULL;
     Efstat 5 0; Econn_send_file 5 5; Eaudit_log "GET" "a.txt" 200 "0";
     Eclose 5; Ereader_unlock NULL]
  ∧ (handle_put sample_hash
       (PutWorld "tmpAb3dE9" 4 None (Alloc 1%N false) (-1) 5 0 6 0 5 5)
       (Conn "a.txt" None REQUEST_PUT) empty_table).1
  = [Emkstemp 4; Econn_recv_file 4; Eclose 4; Eget_file_lock "a.txt" NULL;
     Ewriter_lock NULL; Eaccess "a.txt" (-1);
     Eopen "a.txt" O_WRONLY_CREAT_TRUNC 5; Eopen "tmpAb3dE9" O_RDONLY 6;
     Efstat 6 0; Epass_n_bytes 6 5 5; Eclose 6; Eclose 5;
     Econn_send_response RESPONSE_CREATED; Eaudit_log "PUT" "a.txt" 201 "0";
     Eunlink "tmpAb3dE9"; Ewriter_unlock NULL].
Proof. by vm_compute. Qed.

(** C7, on the code: a GET of a directory, and a GET whose [fstat] fails.
    [open] returned descriptor 5; the handler answers (403, 500), releases
    the read lock and returns, and descriptor 5 is never closed. *)
Theorem handle_get_early_return_leaks_fd :
  (handle_get sample_hash (GetWorld 5 0 (Alloc 1%N true) 0 4096 true None)
     (Conn "dir" None REQUEST_GET) empty_table).1
  = [Eopen "dir" O_RDONLY 5; Eget_file_lock "dir" 1%N; Ereader_lock 1%N;
     Efstat 5 0; Econn_send_response RESPONSE_FORBIDDEN;
     Eaudit_log "GET" "dir" 403 "0"; Ereader_unlock 1%N]
  ∧ (handle_get sample_hash (GetWorld 5 0 (Alloc 1%N true) (-1) 0 false None)
       (Conn "a.txt" None REQUEST_GET) empty_table).1
  = [Eopen "a.txt" O_RDONLY 5; Eget_file_lock "a.txt" 1%N; Ereader_lock 1%N;
     Efstat 5 (-1); Econn_send_response RESPONSE_INTERNAL_SERVER_ERROR;
     Eaudit_log "GET" "a.txt" 500 "0"; Ereader_unlock 1%N].
Proof. by vm_compute. Qed.

(** *** Further properties of the handlers *)

Section MoreHandlers.

Variable hash : string -> N.

Abbreviation handle_get := (handle_get hash).
Abbreviation handle_put := (handle_put hash).
Abbreviation get_file_lock := (get_file_lock hash).
Abbreviation handle_connection := (handle_connection hash).

(** X13: on a created registry that returns a lock, a run of a handler
    writes exactly one audit record; it carries the method of the handler,
    the uri of the request (a parsed request has one: [conn_get_uri] is not
    null), its request id (["0"] without the header) and a status among
    200, 403, 404, 500 for GET, among 200, 201, 403, 500 for PUT, and 501
    for any other method. *)
Theorem handlers_one_audit_record (gw : get_world) (pw : put_world)
    (conn : conn_t) (ht : list (list item)) :
  length ht = TABLE_SIZE →
  (get_file_lock (g_alloc gw) ht (conn_get_uri conn)).1 ≠ NULL →
  (get_file_lock (p_alloc pw) ht (conn_get_uri conn)).1 ≠ NULL →
  let uri := conn_get_uri conn in
  let rid := default "0"%string (conn_get_request_id conn) in
  (∃ c, audits (handle_get gw conn ht).1 = [("GET"%string, uri, c, rid)]
        ∧ (c ∈ [200; 403; 404; 500]))
  ∧ (∃ c, audits (handle_put pw conn ht).1 = [("PUT"%string, uri, c, rid)]
          ∧ (c ∈ [200; 201; 403; 500]))
  ∧ audits (handle_unsupported conn) = [("UNSUPPORTED"%string, uri, 501, rid)].
Proof.
  intros _ _ _ uri rid. split_and!.
  - unfold Handlers.handle_get.
    destruct (get_file_lock (g_alloc gw) ht (conn_get_uri conn)) as [lock ht'].
    destruct (g_open_ret gw <? 0), (g_errno gw =? EACCES),
      (g_errno gw =? ENOENT), (g_fstat_ret gw <? 0), (g_S_ISDIR gw),
      (g_send_file_ret gw); simpl; eexists; (split; [reflexivity|in_trace]).
  - unfold Handlers.handle_put.
    destruct (get_file_lock (p_alloc pw) ht (conn_get_uri conn)) as [lock ht'].
    destruct (p_mkstemp_ret pw <? 0), (p_recv_file_ret pw),
      (p_open_target_ret pw <? 0),
      ((p_errno pw =? EACCES) || (p_errno pw =? EISDIR)),
      (p_open_tmp_ret pw <? 0), (p_fstat_ret pw <? 0),
      (p_pass_n_bytes_ret pw =? -1), (p_access_ret pw <? 0);
      simpl; eexists; (split; [reflexivity|in_trace]).
  - reflexivity.
Qed.

(** X14: on a created registry that returns a lock, a handler releases
    the lock it takes. The calls of [handle_get] on the registry and on
    locks are none when [open] fails, and otherwise [get_file_lock],
    [reader_lock] and [reader_unlock] on the lock that [get_file_lock]
    returned, the release being its last call; the same for [handle_put]
    with [writer_lock] and [writer_unlock], none being made when [mkstemp]
    or the receipt of the body fails. *)
Theorem handlers_release_what_they_lock (gw : get_world) (pw : put_world)
    (conn : conn_t) (ht : list (list item)) :
  length ht = TABLE_SIZE →
  let uri := conn_get_uri conn in
  let lg := (get_file_lock (g_alloc gw) ht uri).1 in
  let lp := (get_file_lock (p_alloc pw) ht uri).1 in
  lg ≠ NULL → lp ≠ NULL →
  let trg := (handle_get gw conn ht).1 in
  let trp := (handle_put pw conn ht).1 in
  lock_events trg
  = (if g_open_ret gw <? 0 then []
     else [Eget_file_lock uri lg; Ereader_lock lg; Ereader_unlock lg])
  ∧ (0 ≤ g_open_ret gw → last trg = Some (Ereader_unlock lg))
  ∧ lock_events trp
    = (if p_mkstemp_ret pw <? 0 then []
       else match p_recv_file_ret pw with
            | Some _ => []
            | None => [Eget_file_lock uri lp; Ewriter_lock lp; Ewriter_unlock lp]
            end)
  ∧ (0 ≤ p_mkstemp_ret pw → p_recv_file_ret pw = None →
     last trp = Some (Ewriter_unlock lp)).
Proof.
  intros _ uri lg lp _ _ trg trp. subst uri lg lp trg trp. split_and!.
  - unfold Handlers.handle_get.
    destruct (get_file_lock (g_alloc gw) ht (conn_get_uri conn)) as [lock ht'].
    destruct (g_open_ret gw <? 0), (g_errno gw =? EACCES),
      (g_errno gw =? ENOENT), (g_fstat_ret gw <? 0), (g_S_ISDIR gw),
      (g_send_file_ret gw); reflexivity.
  - intros E%Z.ltb_ge. unfold Handlers.handle_get. rewrite E.
    destruct (get_file_lock (g_alloc gw) ht (conn_get_uri conn)) as [lock ht'].
    destruct (g_fstat_ret gw <? 0), (g_S_ISDIR gw), (g_send_file_ret gw);
      reflexivity.
  - unfold Handlers.handle_put.
    destruct (get_file_lock (p_alloc pw) ht (conn_get_uri conn)) as [lock ht'].
    destruct (p_mkstemp_ret pw <? 0), (p_recv_file_ret pw),
      (p_open_target_ret pw <? 0),
      ((p_errno pw =? EACCES) || (p_errno pw =? EISDIR)),
      (p_open_tmp_ret pw <? 0), (p_fstat_ret pw <? 0),
      (p_pass_n_bytes_ret pw =? -1), (p_access_ret pw <? 0); reflexivity.
  - intros E1%Z.ltb_ge E2. unfold Handlers.handle_put. rewrite E1, E2.
    destruct (get_file_lock (p_alloc pw) ht (conn_get_uri conn)) as [lock ht'].
    destruct (p_open_target_ret pw <? 0),
      ((p_errno pw =? EACCES) || (p_errno pw =? EISDIR)),
      (p_open_tmp_ret pw <? 0), (p_fstat_ret pw <? 0),
      (p_pass_n_bytes_ret pw =? -1), (p_access_ret pw <? 0); reflexivity.
Qed.

(** X15: on a created registry that returns a lock, [handle_put] closes
    on every path each descriptor that [mkstemp] or [open] gave it, once,
    and removes the temporary file exactly when [mkstemp] made one. *)
Theorem handle_put_closes_and_unlinks (pw : put_world) (conn : conn_t)
    (ht : list (list item)) :
  length ht = TABLE_SIZE →
  (get_file_lock (p_alloc pw) ht (conn_get_uri conn)).1 ≠ NULL →
  let tr := (handle_put pw conn ht).1 in
  closed tr ≡ₚ opened tr
  ∧ unlinked tr = if p_mkstemp_ret pw <? 0 then [] else [p_temp_file pw].
Proof.
  intros _ _ tr. subst tr. unfold Handlers.handle_put.
  destruct (get_file_lock (p_alloc pw) ht (conn_get_uri conn)) as [lock ht'].
  destruct (p_mkstemp_ret pw <? 0) eqn:E1; [simpl; by rewrite ?E1|].
  destruct (p_recv_file_ret pw); [simpl; by rewrite ?E1|].
  destruct (p_open_target_ret pw <? 0) eqn:E2.
  { destruct ((p_errno pw =? EACCES) || (p_errno pw =? EISDIR));
      simpl; by rewrite ?E1, ?E2. }
  destruct (p_open_tmp_ret pw <? 0) eqn:E3; [simpl; by rewrite ?E1, ?E2, ?E3|].
  destruct (p_fstat_ret pw <? 0); [simpl; by rewrite ?E1, ?E2, ?E3|].
  destruct (p_pass_n_bytes_ret pw =? -1); [simpl; by rewrite ?E1, ?E2, ?E3|].
  destruct (p_access_ret pw <? 0); simpl; rewrite ?E1, ?E2, ?E3;
    (split; [apply perm_skip, perm_swap|done]).
Qed.

(** X16: when [mkstemp] or the receipt of the body fails, [handle_put]
    answers 500 and has touched neither the registry, nor a lock, nor the
    target path. *)
Theorem handle_put_receive_failure (pw : put_world) (conn : conn_t)
    (ht : list (list item)) :
  p_mkstemp_ret pw < 0 ∨ is_Some (p_recv_file_ret pw) →
  let tr := (handle_put pw conn ht).1 in
  responses tr = [RESPONSE_INTERNAL_SERVER_ERROR]
  ∧ audit_codes tr = [500]
  ∧ lock_events tr = []
  ∧ filter (fun e => touches (conn_get_uri conn) e = true) tr = []
  ∧ (handle_put pw conn ht).2 = ht.
Proof.
  intros Hfail tr. subst tr. unfold Handlers.handle_put.
  destruct (p_mkstemp_ret pw <? 0) eqn:E1; [done|].
  destruct (p_recv_file_ret pw) eqn:E2; [done|].
  apply Z.ltb_ge in E1. destruct Hfail as [?|[? ?]]; [lia|done].
Qed.

(** X17: on a created registry that returns a lock, when no step of a PUT
    fails by the tests the handler makes ([pass_n_bytes] not returning -1,
    whatever count it reports: the handler does not compare it with
    [st_size]), the response is 201 if [access] reported the target missing
    before it was opened and 200 otherwise; [pass_n_bytes] is called once,
    for [st_size] bytes from the reopened temporary file to the target,
    after [writer_lock] and before [writer_unlock] on the lock of the uri,
    which is the last call. *)
Theorem handle_put_success (pw : put_world) (conn : conn_t)
    (ht : list (list item)) :
  length ht = TABLE_SIZE →
  let lock := (get_file_lock (p_alloc pw) ht (conn_get_uri conn)).1 in
  lock ≠ NULL →
  put_succeeds pw →
  let tr := (handle_put pw conn ht).1 in
  responses tr
  = [if p_access_ret pw <? 0 then RESPONSE_CREATED else RESPONSE_OK]
  ∧ audit_codes tr = [if p_access_ret pw <? 0 then 201 else 200]
  ∧ Epass_n_bytes (p_open_tmp_ret pw) (p_open_target_ret pw) (p_st_size pw)
    ∈ after_writer_lock tr
  ∧ (handle_put pw conn ht).2
    = (get_file_lock (p_alloc pw) ht (conn_get_uri conn)).2
  ∧ copies tr = [(p_open_tmp_ret pw, p_open_target_ret pw, p_st_size pw)]
  ∧ ∃ t1 t2 t3,
      tr = t1 ++ Ewriter_lock lock :: t2
              ++ Epass_n_bytes (p_open_tmp_ret pw) (p_open_target_ret pw)
                   (p_st_size pw) :: t3
              ++ [Ewriter_unlock lock]
      ∧ lock_events t1 = [Eget_file_lock (conn_get_uri conn) lock]
      ∧ lock_events (t2 ++ t3) = [].
Proof.
  intros _ lock _ (H1 & H2 & H3 & H4 & H5 & H6) tr. subst tr lock.
  unfold Handlers.handle_put.
  apply Z.ltb_ge in H1, H3, H4, H5. apply Z.eqb_neq in H6.
  rewrite H1, H2, H3, H4, H5, H6.
  destruct (get_file_lock (p_alloc pw) ht (conn_get_uri conn)) as [lock ht'].
  destruct (p_access_ret pw <? 0);
    (split_and!; [done|done|in_trace|done|done|];
     by eexists [_; _; _; _], [_; _; _; _], [_; _; _; _; _]).
Qed.

(** X18: a GET that opened its file and got a lock, and a later PUT of
    the same uri, use the same lock, whatever requests the registry served
    in between: the lock that [handle_get] passed to [reader_lock] is the
    one [handle_put] passes to [writer_lock]. *)
Theorem get_then_put_same_lock (gw : get_world) (pw : put_world)
    (conn conn' : conn_t) (between : list lock_call) (ht : list (list item)) :
  length ht = TABLE_SIZE →
  conn_get_uri conn' = conn_get_uri conn →
  0 ≤ g_open_ret gw → 0 ≤ p_mkstemp_ret pw → p_recv_file_ret pw = None →
  let l := (get_file_lock (g_alloc gw) ht (conn_get_uri conn)).1 in
  l ≠ NULL →
  Ereader_lock l ∈ (handle_get gw conn ht).1
  ∧ Ewriter_lock l
    ∈ (handle_put pw conn'
         (run_calls hash (handle_get gw conn ht).2 between)).1.
Proof.
  intros Hlen Huri Hfd Hmk Hrecv l Hl.
  pose proof (RegistryFacts.get_file_lock_again hash (g_alloc gw) (p_alloc pw)
                ht between (conn_get_uri conn) Hlen Hl) as Hsame.
  fold l in Hsame.
  assert ((handle_get gw conn ht).2
          = (get_file_lock (g_alloc gw) ht (conn_get_uri conn)).2) as Hht.
  { unfold Handlers.handle_get. apply Z.ltb_ge in Hfd. rewrite Hfd.
    destruct (get_file_lock (g_alloc gw) ht (conn_get_uri conn)) as [lock ht'].
    by destruct (g_fstat_ret gw <? 0), (g_S_ISDIR gw), (g_send_file_ret gw). }
  rewrite Hht. split.
  - subst l. unfold Handlers.handle_get. apply Z.ltb_ge in Hfd. rewrite Hfd.
    destruct (get_file_lock (g_alloc gw) ht (conn_get_uri conn)) as [lock ht'].
    destruct (g_fstat_ret gw <? 0), (g_S_ISDIR gw), (g_send_file_ret gw);
      in_trace.
  - unfold Handlers.handle_put. apply Z.ltb_ge in Hmk.
    rewrite Hmk, Hrecv, Huri.
    destruct (get_file_lock (p_alloc pw)
                (run_calls hash
                   (get_file_lock (g_alloc gw) ht (conn_get_uri conn)).2 between)
                (conn_get_uri conn)) as [lock ht'].
    simpl in Hsame. subst lock.
    destruct (p_open_target_ret pw <? 0),
      ((p_errno pw =? EACCES) || (p_errno pw =? EISDIR)),
      (p_open_tmp_ret pw <? 0), (p_fstat_ret pw <? 0),
      (p_pass_n_bytes_ret pw =? -1), (p_access_ret pw <? 0); in_trace.
Qed.

(** X19: on a created registry that returns a lock, a connection is
    answered: [handle_connection] makes at least one call that sends to the
    client and at most one [conn_send_response]; it makes none only for a
    GET whose file [conn_send_file] sent, logged with 200. A request that
    does not parse, or whose method is neither GET nor PUT, is answered
    whatever the registry is, and touches neither the registry nor a
    lock. *)
Theorem handle_connection_answers (w : conn_world) (conn : conn_t)
    (ht : list (list item)) :
  let tr := (handle_connection w conn ht).1 in
  (length ht = TABLE_SIZE →
   (get_file_lock (g_alloc (c_get w)) ht (conn_get_uri conn)).1 ≠ NULL →
   (get_file_lock (p_alloc (c_put w)) ht (conn_get_uri conn)).1 ≠ NULL →
   (1 ≤ length (filter (fun e => is_send e = true) tr))%nat
   ∧ (length (responses tr) ≤ 1)%nat
   ∧ (responses tr = [] →
      conn_get_request conn = REQUEST_GET ∧ audit_codes tr = [200]))
  ∧ (is_Some (c_parse_ret w) ∨ conn_get_request conn = REQUEST_other →
     length (responses tr) = 1%nat
     ∧ lock_events tr = [] ∧ (handle_connection w conn ht).2 = ht).
Proof.
  intros tr. subst tr. unfold Handlers.handle_connection.
  destruct (c_parse_ret w) as [res|] eqn:Ep.
  { simpl. split_and!; try done; intros; split_and!; try done; lia. }
  destruct (conn_get_request conn) eqn:Er.
  - unfold Handlers.handle_get.
    destruct (get_file_lock (g_alloc (c_get w)) ht (conn_get_uri conn))
      as [lock ht'].
    destruct (g_open_ret (c_get w) <? 0), (g_errno (c_get w) =? EACCES),
      (g_errno (c_get w) =? ENOENT), (g_fstat_ret (c_get w) <? 0),
      (g_S_ISDIR (c_get w)), (g_send_file_ret (c_get w)); simpl;
      (split; [intros _ _ _; split_and!; [lia|lia|done]|by intros [[? ?]|?]]).
  - unfold Handlers.handle_put.
    destruct (get_file_lock (p_alloc (c_put w)) ht (conn_get_uri conn))
      as [lock ht'].
    destruct (p_mkstemp_ret (c_put w) <? 0), (p_recv_file_ret (c_put w)),
      (p_open_target_ret (c_put w) <? 0),
      ((p_errno (c_put w) =? EACCES) || (p_errno (c_put w) =? EISDIR)),
      (p_open_tmp_ret (c_put w) <? 0), (p_fstat_ret (c_put w) <? 0),
      (p_pass_n_bytes_ret (c_put w) =? -1), (p_access_ret (c_put w) <? 0);
      simpl; (split; [intros _ _ _; split_and!; [lia|lia|done]|by intros [[? ?]|?]]).
  - simpl. split; [intros _ _ _; split_and!; [lia|lia|done]|done].
Qed.

End MoreHandlers.

Lemma handle_put_receive_failure_witness :
  lock_events (handle_put sample_hash
                 (PutWorld "tmpAb3dE9" 4 (Some RESPONSE_INTERNAL_SERVER_ERROR)
                    (Alloc 1%N true) 0 5 0 6 0 5 5)
                 (Conn "a.txt" None REQUEST_PUT) empty_table).1 = [].
Proof.
  apply (handle_put_receive_failure sample_hash
           (PutWorld "tmpAb3dE9" 4 (Some RESPONSE_INTERNAL_SERVER_ERROR)
              (Alloc 1%N true) 0 5 0 6 0 5 5)
           (Conn "a.txt" None REQUEST_PUT) empty_table).
  right. by eexists.
Defined.

Lemma handlers_one_audit_record_witness :
  length empty_table = TABLE_SIZE ∧
  audits (handle_unsupported (Conn "a.txt" None REQUEST_other))
  = [("UNSUPPORTED"%string, "a.txt"%string, 501, "0"%string)] ∧
  ∃ c, audits (handle_get sample_hash (GetWorld 5 0 (Alloc 7%N true) 0 5 false None)
                 (Conn "a.txt" None REQUEST_other) empty_table).1
       = [("GET"%string, "a.txt"%string, c, "0"%string)]
       ∧ (c ∈ [200; 403; 404; 500]).
Proof.
  assert ((get_file_lock sample_hash (Alloc 7%N true) empty_table "a.txt").1 ≠ NULL)
    as Hg by (by vm_compute).
  assert ((get_file_lock sample_hash (Alloc 9%N true) empty_table "a.txt").1 ≠ NULL)
    as Hp by (by vm_compute).
  pose proof (handlers_one_audit_record sample_hash
                (GetWorld 5 0 (Alloc 7%N true) 0 5 false None)
                (PutWorld "tmpAb3dE9" 4 None (Alloc 9%N true) 0 5 0 6 0 5 5)
                (Conn "a.txt" None REQUEST_other) empty_table eq_refl Hg Hp)
    as (HG & _ & HU).
  split_and!; [reflexivity|exact HU|exact HG].
Defined.

Lemma handlers_release_what_they_lock_witness :
  length empty_table = TABLE_SIZE ∧
  lock_events (handle_put sample_hash
                 (PutWorld "tmpAb3dE9" 4 None (Alloc 9%N true) 0 5 0 6 0 5 5)
                 (Conn "a.txt" None REQUEST_PUT) empty_table).1
  = [Eget_file_lock "a.txt" 9%N; Ewriter_lock 9%N; Ewriter_unlock 9%N].
Proof.
  assert ((get_file_lock sample_hash (Alloc 7%N true) empty_table "a.txt").1 ≠ NULL)
    as Hg by (by vm_compute).
  assert ((get_file_lock sample_hash (Alloc 9%N true) empty_table "a.txt").1 ≠ NULL)
    as Hp by (by vm_compute).
  pose proof (handlers_release_what_they_lock sample_hash
                (GetWorld 5 0 (Alloc 7%N true) 0 5 false None)
                (PutWorld "tmpAb3dE9" 4 None (Alloc 9%N true) 0 5 0 6 0 5 5)
                (Conn "a.txt" None REQUEST_PUT) empty_table eq_refl Hg Hp)
    as (_ & _ & HP & _).
  split; [reflexivity|exact HP].
Defined.

Lemma handle_put_closes_and_unlinks_witness :
  length empty_table = TABLE_SIZE ∧
  unlinked (handle_put sample_hash
              (PutWorld "tmpAb3dE9" 4 None (Alloc 9%N true) 0 5 0 6 0 5 (-1))
              (Conn "a.txt" None REQUEST_PUT) empty_table).1
  = ["tmpAb3dE9"%string].
Proof.
  assert ((get_file_lock sample_hash (Alloc 9%N true) empty_table "a.txt").1 ≠ NULL)
    as Hp by (by vm_compute).
  split; [reflexivity|].
  exact (proj2 (handle_put_closes_and_unlinks sample_hash
                  (PutWorld "tmpAb3dE9" 4 None (Alloc 9%N true) 0 5 0 6 0 5 (-1))
                  (Conn "a.txt" None REQUEST_PUT) empty_table eq_refl Hp)).
Defined.

(** A copy that reports 3 of the 5 bytes is answered as a success. *)
Lemma handle_put_success_witness :
  length empty_table = TABLE_SIZE ∧
  put_succeeds (PutWorld "tmpAb3dE9" 4 None (Alloc 1%N true) (-1) 5 0 6 0 5 3) ∧
  responses (handle_put sample_hash
               (PutWorld "tmpAb3dE9" 4 None (Alloc 1%N true) (-1) 5 0 6 0 5 3)
               (Conn "a.txt" None REQUEST_PUT) empty_table).1
  = [RESPONSE_CREATED].
Proof.
  assert ((get_file_lock sample_hash (Alloc 1%N true) empty_table "a.txt").1 ≠ NULL)
    as Hp by (by vm_compute).
  assert (put_succeeds (PutWorld "tmpAb3dE9" 4 None (Alloc 1%N true) (-1) 5 0 6 0 5 3))
    as Hs by (unfold put_succeeds; simpl; split_and!; try done; lia).
  split_and!; [reflexivity|exact Hs|].
  exact (proj1 (handle_put_success sample_hash
                  (PutWorld "tmpAb3dE9" 4 None (Alloc 1%N true) (-1) 5 0 6 0 5 3)
                  (Conn "a.txt" None REQUEST_PUT) empty_table eq_refl Hp Hs)).
Defined.

Lemma handle_connection_answers_witness :
  length empty_table = TABLE_SIZE ∧
  (1 ≤ length (filter (fun e => is_send e = true)
                 (handle_connection sample_hash
                    (ConnWorld None (GetWorld 5 0 (Alloc 7%N true) 0 5 false None)
                       (PutWorld "tmpAb3dE9" 4 None (Alloc 9%N true) 0 5 0 6 0 5 5))
                    (Conn "a.txt" None REQUEST_GET) empty_table).1))%nat.
Proof.
  assert ((get_file_lock sample_hash (Alloc 7%N true) empty_table "a.txt").1 ≠ NULL)
    as Hg by (by vm_compute).
  assert ((get_file_lock sample_hash (Alloc 9%N true) empty_table "a.txt").1 ≠ NULL)
    as Hp by (by vm_compute).
  split; [reflexivity|].
  exact (proj1 (proj1 (handle_connection_answers sample_hash
                         (ConnWorld None (GetWorld 5 0 (Alloc 7%N true) 0 5 false None)
                            (PutWorld "tmpAb3dE9" 4 None (Alloc 9%N true) 0 5 0 6 0 5 5))
                         (Conn "a.txt" None REQUEST_GET) empty_table) eq_refl Hg Hp)).
Defined.

Lemma get_then_put_same_lock_witness :
  Ewriter_lock 7%N
  ∈ (handle_put sample_hash
       (PutWorld "tmpAb3dE9" 4 None (Alloc 9%N true) 0 5 0 6 0 5 5)
       (Conn "a.txt" None REQUEST_PUT)
       (run_calls sample_hash
          (handle_get sample_hash (GetWorld 5 0 (Alloc 7%N true) 0 5 false None)
             (Conn "a.txt" None REQUEST_GET) empty_table).2
          [(Alloc 8%N true, "b.txt")])).1.
Proof.
  apply (get_then_put_same_lock sample_hash
           (GetWorld 5 0 (Alloc 7%N true) 0 5 false None)
           (PutWorld "tmpAb3dE9" 4 None (Alloc 9%N true) 0 5 0 6 0 5 5)
           (Conn "a.txt" None REQUEST_GET) (Conn "a.txt" None REQUEST_PUT)
           [(Alloc 8%N true, "b.txt")] empty_table);
    try reflexivity; simpl; try lia. by vm_compute.
Defined.

End HandlersFacts.

(** * Properties of the start-up *)
Module StartupFacts.
Import Startup.

Local Open Scope Z_scope.

(** Whenever [main] reaches the accept loop, the port is in [1, 65535]. *)
Lemma main_serve_port li argv n port :
  main li argv = Serve n port → 1 ≤ port ≤ 65535.
Proof.
  unfold main. destruct (length argv <? 2)%nat; [done|].
  destruct (parse_options _ _ _ _) as [[nt oi]|]; [|done].
  destruct (argv !! oi) as [arg|]; [|done].
  destruct (strtoull arg) as [p e].
  destruct (negb (e =? "")%string); [done|].
  destruct ((p <? 1) || (p >? 65535)) eqn:E; [done|].
  destruct (li p <? 0); [done|]. intros [= _ <-].
  apply orb_false_iff in E as [E1 E2]. lia.
Qed.

(** Without any argument [main] returns [EXIT_FAILURE]. *)
Lemma main_no_argument li prog : main li [prog] = Exit EXIT_FAILURE.
Proof. reflexivity. Qed.

(** A port that does not parse fully, or lies outside [1, 65535], makes
    [main] return [EXIT_FAILURE]. *)
Example main_rejects_bad_ports :
  main listener_ok ["httpserver"; "0"] = Exit EXIT_FAILURE
  ∧ main listener_ok ["httpserver"; "65536"] = Exit EXIT_FAILURE
  ∧ main listener_ok ["httpserver"; "80a"] = Exit EXIT_FAILURE
  ∧ main listener_ok ["httpserver"; "port"] = Exit EXIT_FAILURE
  ∧ main listener_ok ["httpserver"; ""] = Exit EXIT_FAILURE
  ∧ main listener_ok ["httpserver"; "-t"; "8"; "8080"] = Serve 8 8080
  ∧ main listener_ok ["httpserver"; "8080"] = Serve DEFAULT_THREADS 8080.
Proof. by vm_compute. Qed.

(** C10, on the code: the value of [-t] is what [atoi] returns, unchecked.
    With [-t 0], [-t abc] and [-t -3] [main] reaches the queue, the thread
    array and the accept loop with 0, 0 and -3 threads; and with [-t 4] and
    no port, [argc] is 3, the usage check passes and the null [argv[3]] is
    handed to [strtoull]. *)
Theorem main_starts_with_invalid_thread_count :
  main listener_ok ["httpserver"; "-t"; "0"; "8080"] = Serve 0 8080
  ∧ main listener_ok ["httpserver"; "-t"; "abc"; "8080"] = Serve 0 8080
  ∧ main listener_ok ["httpserver"; "-t"; "-3"; "8080"] = Serve (-3) 8080
  ∧ main listener_ok ["httpserver"; "-t"; "4"] = Crash.
Proof. by vm_compute. Qed.

(** *** Further properties of [main] *)

Lemma digit_not_space c : is_Some (digit_of c) → isspace c = false.
Proof.
  destruct c as [[] [] [] [] [] [] [] []]; vm_compute; try done;
    by intros [? ?].
Qed.

Lemma digit_not_sign c :
  is_Some (digit_of c) → c ≠ "-"%char ∧ c ≠ "+"%char.
Proof.
  destruct c as [[] [] [] [] [] [] [] []]; vm_compute; try done;
    by intros [? ?].
Qed.

Lemma read_digits_all s : ∀ acc,
  all_digits s = true →
  read_digits acc s = (String.length s, decimal_from acc s, EmptyString).
Proof.
  induction s as [|c s IH]; intros acc Hs; simpl in *; [done|].
  apply andb_true_iff in Hs as [Hc Hs]. apply bool_decide_eq_true_1 in Hc.
  destruct Hc as [d Hd]. rewrite Hd. simpl. by rewrite (IH _ Hs).
Qed.

Lemma strtoull_decimal s :
  all_digits s = true → s ≠ EmptyString →
  strtoull s
  = (if decimal s >? ULLONG_MAX then ULLONG_MAX else decimal s, EmptyString).
Proof.
  intros Hs Hne. destruct s as [|c r]; [done|].
  pose proof Hs as Hs'. simpl in Hs'. apply andb_true_iff in Hs' as [Hc _].
  apply bool_decide_eq_true_1 in Hc.
  unfold strtoull.
  assert (skip_space (String c r) = String c r) as ->.
  { simpl. by rewrite (digit_not_space c Hc). }
  assert (read_sign (String c r) = (false, String c r)) as ->.
  { destruct (digit_not_sign c Hc) as [H1 H2]. unfold read_sign.
    destruct c as [[] [] [] [] [] [] [] []]; try done. }
  rewrite (read_digits_all _ 0 Hs). simpl String.length. cbv iota beta.
  unfold decimal. by destruct (decimal_from 0 (String c r) >? ULLONG_MAX).
Qed.

Lemma getopt_digit argv optind c r :
  argv !! optind = Some (String c r) → is_Some (digit_of c) →
  getopt argv optind = GEnd optind.
Proof.
  intros H Hc. unfold getopt. rewrite H.
  destruct (digit_not_sign c Hc) as [H1 _].
  destruct c as [[] [] [] [] [] [] [] []]; try done.
Qed.

(** X20: whenever [main] goes on to serve, it was given at least one
    argument, the port lies in [1, 65535], it is the value [strtoull] read
    from an argument with nothing left over, and [listener_init] accepted
    it. *)
Theorem main_serves_valid_port (li : Z → Z) (argv : list string)
    (n port : Z) :
  main li argv = Serve n port →
  (2 ≤ length argv)%nat
  ∧ 1 ≤ port ≤ 65535
  ∧ (∃ optind arg, argv !! optind = Some arg
                   ∧ strtoull arg = (port, EmptyString))
  ∧ 0 ≤ li port.
Proof.
  unfold main. destruct (length argv <? 2)%nat eqn:El; [done|].
  apply Nat.ltb_ge in El.
  destruct (parse_options _ _ _ _) as [[nt oi]|]; [|done].
  destruct (argv !! oi) as [arg|] eqn:Ea; [|done].
  destruct (strtoull arg) as [p e] eqn:Es.
  destruct (e =? "")%string eqn:Ee; [|done]. simpl.
  apply String.eqb_eq in Ee. subst e.
  destruct ((p <? 1) || (p >? 65535)) eqn:E; [done|].
  destruct (li p <? 0) eqn:E3; [done|]. intros [= _ <-].
  apply orb_false_iff in E as [E1 E2]. apply Z.ltb_ge in E3.
  split_and!; [done|lia|lia|by exists oi, arg|done].
Qed.

Lemma main_serves_valid_port_witness : 1 ≤ 8080 ≤ 65535.
Proof.
  by apply (main_serves_valid_port listener_ok
              ["httpserver"; "-t"; "8"; "8080"]%string 8 8080 eq_refl).
Defined.

(** X21: when the port is the first argument, a plain decimal numeral, and
    no argument after it starts with ['-'], [main] serves with the default
    4 threads on that port exactly when its value lies in [1, 65535] and
    [listener_init] accepts it, and returns [EXIT_FAILURE] otherwise; the
    arguments after the port are not read. (On such a command line it makes
    no difference whether [getopt] permutes the arguments.) *)
Theorem main_plain_decimal_port (li : Z → Z) (prog s : string)
    (rest : list string) :
  all_digits s = true → s ≠ EmptyString →
  Forall (fun a => starts_with_dash a = false) rest →
  main li (prog :: s :: rest)
  = if (1 <=? decimal s) && (decimal s <=? 65535) && (0 <=? li (decimal s))
    then Serve DEFAULT_THREADS (decimal s) else Exit EXIT_FAILURE.
Proof.
  intros Hs Hne _. unfold main. simpl length. cbn [Nat.ltb Nat.leb].
  assert (getopt (prog :: s :: rest) 1 = GEnd 1) as Hg.
  { destruct s as [|c r]; [done|]. apply (getopt_digit _ 1 c r); [done|].
    simpl in Hs. apply andb_true_iff in Hs as [Hc _].
    by apply bool_decide_eq_true_1 in Hc. }
  cbn [parse_options]. rewrite Hg. simpl lookup. cbv beta iota.
  rewrite (strtoull_decimal s Hs Hne). simpl negb. cbv beta iota.
  destruct (decimal s >? ULLONG_MAX) eqn:Eo.
  - assert ((decimal s <=? 65535) = false) as ->.
    { apply Z.leb_gt. apply Z.gtb_lt in Eo. unfold ULLONG_MAX in Eo. lia. }
    rewrite andb_false_r. done.
  - destruct (decimal s <? 1) eqn:E1, (decimal s >? 65535) eqn:E2; simpl.
    + rewrite (proj2 (Z.leb_gt _ _)); [done|lia].
    + rewrite (proj2 (Z.leb_gt _ _)); [done|lia].
    + rewrite (proj2 (Z.leb_gt (decimal s) 65535)) by lia.
      by rewrite andb_false_r.
    + rewrite (proj2 (Z.leb_le 1 (decimal s))) by lia.
      rewrite (proj2 (Z.leb_le (decimal s) 65535)) by lia. simpl.
      destruct (li (decimal s) <? 0) eqn:E3.
      * rewrite (proj2 (Z.leb_gt _ _)); [done|lia].
      * rewrite (proj2 (Z.leb_le _ _)); [done|lia].
Qed.

Lemma main_plain_decimal_port_witness :
  Forall (fun a => starts_with_dash a = false) ["ignored"%string] ∧
  main listener_ok ["httpserver"; "08080"; "ignored"]%string
  = Serve DEFAULT_THREADS 8080.
Proof.
  assert (Forall (fun a => starts_with_dash a = false) ["ignored"%string]) as H.
  { apply Forall_singleton. reflexivity. }
  split; [exact H|].
  by rewrite (main_plain_decimal_port listener_ok "httpserver" "08080"
                ["ignored"%string] eq_refl ltac:(done) H).
Defined.

Lemma length_t_options (vs : list string) :
  length (vs ≫= fun v => ["-t"%string; v]) = (2 * length vs)%nat.
Proof.
  induction vs as [|v vs IH]; [done|]. rewrite bind_cons, length_app, IH.
  simpl. lia.
Qed.

(** The option loop fails on an argument that [getopt] rejects, after any
    number of [-t] options with their values. *)
Lemma parse_options_rejects (tail : list string) (vs : list string) :
  (∀ pre, getopt (pre ++ tail) (length pre) = GUnknown) →
  ∀ fuel pre nt,
    (length vs < fuel)%nat →
    parse_options fuel (pre ++ (vs ≫= fun v => ["-t"%string; v]) ++ tail)
      (length pre) nt = None.
Proof.
  intros Htail. induction vs as [|v vs IH]; intros [|fuel] pre nt Hf;
    simpl in Hf; try lia.
  - simpl. by rewrite Htail.
  - rewrite bind_cons. cbn [parse_options].
    assert (getopt (pre ++ (["-t"%string; v] ++ vs ≫= (fun v => ["-t"%string; v])) ++ tail)
              (length pre) = GOpt_t v (S (S (length pre)))) as ->.
    { unfold getopt. simpl app. rewrite list_lookup_middle by done.
      rewrite (lookup_app_r pre) by lia.
      by replace (S (length pre) - length pre)%nat with 1%nat by lia. }
    specialize (IH fuel (pre ++ ["-t"%string; v]) (atoi v) ltac:(lia)).
    rewrite length_app in IH. simpl in IH.
    replace (length pre + 2)%nat with (S (S (length pre))) in IH by lia.
    rewrite <- IH. f_equal. by rewrite <- !app_assoc.
Qed.

(** X22: among the options that come first on the command line, an option
    other than [-t], or a last [-t] without its value, makes [main] return
    [EXIT_FAILURE], whatever thread counts were given before it and
    whatever follows it. *)
Theorem main_rejects_other_options (li : Z → Z) (prog : string)
    (vs : list string) (c : ascii) (r : string) (rest : list string) :
  c ≠ "t"%char → c ≠ "-"%char →
  let opts := vs ≫= (fun v => ["-t"%string; v]) in
  main li (prog :: opts ++ String "-" (String c r) :: rest) = Exit EXIT_FAILURE
  ∧ main li (prog :: opts ++ ["-t"%string]) = Exit EXIT_FAILURE.
Proof.
  intros Ht Hm opts. subst opts. split.
  - unfold main.
    destruct (length _ <? 2)%nat eqn:El; [done|].
    rewrite (parse_options_rejects (String "-" (String c r) :: rest) vs
               ltac:(intros pre; unfold getopt; rewrite list_lookup_middle by done;
                     destruct c as [[] [] [] [] [] [] [] []]; try done; by destruct r)
               _ [prog] DEFAULT_THREADS); [done|].
    simpl. rewrite length_app, length_t_options. simpl. lia.
  - unfold main.
    destruct (length _ <? 2)%nat eqn:El; [done|].
    rewrite (parse_options_rejects ["-t"%string] vs
               ltac:(intros pre; unfold getopt; rewrite list_lookup_middle by done;
                     rewrite lookup_ge_None_2; [done|rewrite length_app; simpl; lia])
               _ [prog] DEFAULT_THREADS); [done|].
    simpl. rewrite length_app, length_t_options. simpl. lia.
Qed.

Lemma main_rejects_other_options_witness :
  main listener_ok ["httpserver"; "-t"; "8"; "-x"; "8080"]%string = Exit EXIT_FAILURE
  ∧ main listener_ok ["httpserver"; "-t"; "8"; "-t"]%string = Exit EXIT_FAILURE.
Proof.
  apply (main_rejects_other_options listener_ok "httpserver" ["8"%string] "x" ""
           ["8080"%string]); by vm_compute.
Defined.

End StartupFacts.
